(** * vocab-app: the spaced-repetition word selector and the click recorder

    A shallow embedding of [src/app.js]: the helper [pickRandom], the batch
    selector [selectSpacedRepetitionWords], the token sanitizer
    [sanitizeWord], and the two event handlers that touch the statistics
    document ([fetchWords] and [handleWordClick]), followed by the
    properties of the specification that concern them. *)

From Stdlib Require Import String Ascii.
From stdpp Require Import base numbers option list sorting gmap.

Local Open Scope Z_scope.

(** ** JavaScript data *)

(** A JavaScript string is a sequence of UTF-16 code units. *)
Abbreviation jsstring := (list N).

(** Words are strings used as property keys of plain objects and compared
    by [Array.prototype.includes], that is by string equality. *)
Abbreviation word := (list N).

(** The three statistics objects [storyUsage], [clickCount] and
    [lastClickUsage] are plain objects used as maps from a word to a number.
    The map holds the entries the object stores, its own properties; the
    members every object inherits from its prototype are not entries of the
    map, and the property read [getProp] below finds them.  The counts are
    integers.  A number of the program holds an integer exactly up to 2^53;
    the selector compares counts and differences of counts with small
    constants, which has the same outcome on integers of any size. *)
Abbreviation statMap := (gmap (list N) Z).

(** A number that may be [undefined] or [NaN]: both are [None], because the
    selector only compares such values and every comparison with either is
    false. *)
Abbreviation jsnum := (option Z).

(** [x || 0] on a stored entry: [undefined] and [0] are falsy. *)
Definition orZero (x : jsnum) : Z :=
  match x with
  | Some v => v
  | None => 0
  end.

(** [x < k], [x >= k], [x > k] and [x === k]: false on [undefined] and on
    [NaN]. *)
Definition ltNum (x : jsnum) (k : Z) : bool :=
  match x with
  | Some v => v <? k
  | None => false
  end.

Definition geNum (x : jsnum) (k : Z) : bool :=
  match x with
  | Some v => k <=? v
  | None => false
  end.

Definition gtNum (x : jsnum) (k : Z) : bool :=
  match x with
  | Some v => k <? v
  | None => false
  end.

Definition eqNum (x : jsnum) (k : Z) : bool :=
  match x with
  | Some v => v =? k
  | None => false
  end.

(** [x - y], which is [NaN] as soon as one side is [undefined] or [NaN]. *)
Definition subNums (x y : jsnum) : jsnum :=
  match x, y with
  | Some v, Some k => Some (v - k)
  | _, _ => None
  end.

(** ** Property reads on a plain object *)

(** String literals of the source, as code units (all of them are ASCII). *)
Definition str (s : string) : jsstring :=
  map N_of_ascii (list_ascii_of_string s).

(** The statistics objects are object literals and objects built by the
    Firestore SDK from a map field: their prototype is [Object.prototype].
    These are the names of its members: the seven methods of the language,
    and the accessor [__proto__] and the four legacy methods every browser
    defines. *)
Definition objectPrototypeMembers : list jsstring :=
  [str "constructor"; str "hasOwnProperty"; str "isPrototypeOf";
   str "propertyIsEnumerable"; str "toLocaleString"; str "toString";
   str "valueOf"; str "__proto__"; str "__defineGetter__";
   str "__defineSetter__"; str "__lookupGetter__"; str "__lookupSetter__"].

Definition isPrototypeMember (w : word) : bool :=
  bool_decide (w ∈ objectPrototypeMembers).

(** What a read [obj[w]] yields: the stored number, or, when the object
    stores nothing under [w], the member it inherits under that name (a
    function, or the prototype itself for [__proto__]), or [undefined]. *)
Inductive jsprop :=
  | PNum (v : Z)
  | PMember
  | PUndefined.

Definition getProp (obj : statMap) (w : word) : jsprop :=
  match obj !! w with
  | Some v => PNum v
  | None => if isPrototypeMember w then PMember else PUndefined
  end.

(** The read [obj[w]] used as a number: [undefined] and an inherited member
    both convert to [NaN]. *)
Definition numOf (p : jsprop) : jsnum :=
  match p with
  | PNum v => Some v
  | PMember | PUndefined => None
  end.

(** [obj[w] || 0] used as a number: [undefined] and [0] are falsy and give
    [0]; an inherited member is truthy, so it is the value of the expression
    and converts to [NaN]. *)
Definition orZeroOf (p : jsprop) : jsnum :=
  match p with
  | PNum v => Some v
  | PUndefined => Some 0
  | PMember => None
  end.

(** ** Configuration constants *)

Definition NEW_BATCH_SIZE : nat := 50.
Definition MIX_SIZE : nat := 50.
Definition MASTER_THRESHOLD : Z := 20.
Definition REVIEW_THRESHOLD : Z := 20.

(** The literals of the selector: the batch target and the band quotas. *)
Definition TARGET_BATCH_SIZE : nat := 100.
Definition HARD_QUOTA : nat := 20.
Definition MEDIUM_QUOTA : nat := 20.
Definition EASY_QUOTA : nat := 10.

(** ** The random source *)

(** [Math.random] is a stream of draws and a cursor.  A call
    [Math.floor(Math.random() * len)] consumes one draw [d] and yields the
    index [d mod len]; every index below [len] is the image of some draw. *)
Record rng := Rng { draws : nat → nat; used : nat }.

Definition randomIndex (g : rng) (len : nat) : nat * rng :=
  ((draws g (used g) `mod` len)%nat, Rng (draws g) (S (used g))).

(** ** pickRandom *)

(** The loop [while (picked.length < n && copy.length)]: [n] counts the
    picks still allowed, [copy] is the shrinking copy of the source array,
    and the picked elements are pushed in the order they are drawn.  The
    index is below the length of [copy], so [splice] always finds an
    element and the last branch is never taken. *)
Fixpoint pickRandom {A} (g : rng) (copy : list A) (n : nat) : list A * rng :=
  match n with
  | O => ([], g)
  | S n' =>
    match copy with
    | [] => ([], g)
    | _ :: _ =>
      let '(idx, g1) := randomIndex g (length copy) in
      match copy !! idx with
      | Some x =>
        let '(picked, g2) := pickRandom g1 (delete idx copy) n' in
        (x :: picked, g2)
      | None => ([], g1)
      end
    end
  end.

(** ** Array.prototype.sort and slice *)

(** [arr.sort(cmp)] is a stable sort: [a] stays before [b] when
    [cmp(a, b) <= 0] and [a] came first. *)
Fixpoint insertSorted {A} (cmp : A → A → Z) (x : A) (l : list A) : list A :=
  match l with
  | [] => [x]
  | y :: l' => if cmp x y <=? 0 then x :: l else y :: insertSorted cmp x l'
  end.

Definition arraySort {A} (cmp : A → A → Z) (l : list A) : list A :=
  foldr (insertSorted cmp) [] l.

(** [arr.slice(from, to)] with [0 <= from] and [0 <= to]: both ends are
    clamped to the length, and the result is empty when [to <= from]. *)
Definition slice {A} (from to : nat) (l : list A) : list A :=
  take (to - from)%nat (drop from l).

(** [Math.ceil(n / 3)]. *)
Definition ceilThird (n : nat) : nat := ((n + 2) / 3)%nat.

(** ** The five categories *)

Section Categories.
Variables storyUsage clickCount lastClickUsage : statMap.

Definition isUnseen (w : word) : bool :=
  eqNum (orZeroOf (getProp storyUsage w)) 0.

Definition isSeenUnclicked (w : word) : bool :=
  gtNum (orZeroOf (getProp storyUsage w)) 0
  && ltNum (numOf (getProp storyUsage w)) MASTER_THRESHOLD
  && eqNum (orZeroOf (getProp clickCount w)) 0.

Definition isClickedInLearning (w : word) : bool :=
  gtNum (orZeroOf (getProp clickCount w)) 0
  && ltNum (subNums (numOf (getProp storyUsage w))
                    (orZeroOf (getProp lastClickUsage w)))
           REVIEW_THRESHOLD.

Definition isMasteredByRepetition (w : word) : bool :=
  geNum (orZeroOf (getProp storyUsage w)) MASTER_THRESHOLD
  && eqNum (orZeroOf (getProp clickCount w)) 0.

Definition isMasteredByReview (w : word) : bool :=
  gtNum (orZeroOf (getProp clickCount w)) 0
  && geNum (subNums (numOf (getProp storyUsage w))
                    (orZeroOf (getProp lastClickUsage w)))
           REVIEW_THRESHOLD.

(** The comparator of the review sort.  [Array.prototype.sort] reads a
    comparator result of [NaN] as [0]. *)
Definition byClickCount (a b : word) : Z :=
  match subNums (orZeroOf (getProp clickCount a))
                (orZeroOf (getProp clickCount b)) with
  | Some v => v
  | None => 0
  end.
End Categories.

(** The tiers of the specification, and the filter that computes each. *)
Inductive Tier :=
  | Unseen
  | SeenUnclicked
  | ClickedInLearning
  | MasteredByRepetition
  | MasteredByReview.

#[global] Instance Tier_eq_dec : EqDecision Tier.
Proof. solve_decision. Defined.

Definition inTier (su cc lcu : statMap) (t : Tier) (w : word) : bool :=
  match t with
  | Unseen => isUnseen su w
  | SeenUnclicked => isSeenUnclicked su cc w
  | ClickedInLearning => isClickedInLearning su cc lcu w
  | MasteredByRepetition => isMasteredByRepetition su cc w
  | MasteredByReview => isMasteredByReview su cc lcu w
  end.

Definition tierWords (su cc lcu : statMap) (t : Tier) (allWords : list word)
  : list word :=
  filter (λ w, inTier su cc lcu t w) allWords.

Definition allTiers : list Tier :=
  [Unseen; SeenUnclicked; ClickedInLearning; MasteredByRepetition;
   MasteredByReview].

(** The tiers whose filter keeps [w]. *)
Definition tiersOf (su cc lcu : statMap) (w : word) : list Tier :=
  filter (λ t, inTier su cc lcu t w) allTiers.

(** ** selectSpacedRepetitionWords *)

(** The fallback pool of step 7, built in the order of precedence. *)
Definition fallbackPool (unseen seenUnclicked clickedInLearning : list word)
    (selectedWords : list word) : list word :=
  filter (λ w, w ∉ selectedWords) unseen
  ++ filter (λ w, w ∉ selectedWords) seenUnclicked
  ++ filter (λ w, w ∉ selectedWords) clickedInLearning.

(** The local variables of one call, in the order the function binds them.
    [clickedInLearning] is the array as the filter returns it;
    [Array.prototype.sort] sorts it in place and returns the same array, so
    from step 4 on the name [clickedInLearning] denotes [sortedClicked].
    [provisional] is [selectedWords] after step 6 and [selectedWords] is its
    final value. *)
Record selection := Selection {
  unseen : list word;
  seenUnclicked : list word;
  clickedInLearning : list word;
  masteredByRepetition : list word;
  masteredByReview : list word;
  available : list word;
  batchNew : list word;
  sortedClicked : list word;
  third : nat;
  hard : list word;
  medium : list word;
  easy : list word;
  hardPick : list word;
  mediumPick : list word;
  easyPick : list word;
  provisional : list word;
  selectedWords : list word
}.

(** What [console.log] prints in step 1: the five category counts. *)
Record categoryCounts := CategoryCounts {
  nUnseen : nat;
  nSeenUnclicked : nat;
  nClickedInLearning : nat;
  nMasteredRep : nat;
  nMasteredReview : nat
}.

(** The body of [selectSpacedRepetitionWords], step by step, with the
    random source threaded through the five calls of [pickRandom]. *)
Definition selectSteps (g : rng) (allWords : list word)
    (storyUsage clickCount lastClickUsage : statMap) : selection * rng :=
  (* 1: categorize *)
  let unseen := filter (λ w, isUnseen storyUsage w) allWords in
  let seenUnclicked :=
    filter (λ w, isSeenUnclicked storyUsage clickCount w) allWords in
  let clickedInLearning :=
    filter (λ w, isClickedInLearning storyUsage clickCount lastClickUsage w)
           allWords in
  let masteredByRepetition :=
    filter (λ w, isMasteredByRepetition storyUsage clickCount w) allWords in
  let masteredByReview :=
    filter (λ w, isMasteredByReview storyUsage clickCount lastClickUsage w)
           allWords in
  (* 2: computed and never read again *)
  let available :=
    filter (λ w, (w ∉ masteredByRepetition) ∧ (w ∉ masteredByReview))
           allWords in
  (* 3: brand-new words *)
  let '(batchNew, g) :=
    pickRandom g unseen (Nat.min (length unseen) NEW_BATCH_SIZE) in
  (* 4: review candidates, sorted in place *)
  let sortedClicked := arraySort (byClickCount clickCount) clickedInLearning in
  let third := ceilThird (length sortedClicked) in
  let hard := slice 0 third sortedClicked in
  let medium := slice third (2 * third) sortedClicked in
  let easy := drop (2 * third) sortedClicked in
  (* 5: review picks *)
  let '(hardPick, g) := pickRandom g hard (Nat.min (length hard) HARD_QUOTA) in
  let '(mediumPick, g) :=
    pickRandom g medium (Nat.min (length medium) MEDIUM_QUOTA) in
  let '(easyPick, g) := pickRandom g easy (Nat.min (length easy) EASY_QUOTA) in
  (* 6: combine *)
  let provisional := batchNew ++ hardPick ++ mediumPick ++ easyPick in
  (* 7: backfill *)
  let '(selectedWords, g) :=
    if bool_decide (length provisional < TARGET_BATCH_SIZE)%nat then
      let remaining := (TARGET_BATCH_SIZE - length provisional)%nat in
      let pool :=
        fallbackPool unseen seenUnclicked sortedClicked provisional in
      let '(fill, g) := pickRandom g pool (Nat.min (length pool) remaining) in
      (provisional ++ fill, g)
    else (provisional, g) in
  (Selection unseen seenUnclicked clickedInLearning masteredByRepetition
     masteredByReview available batchNew sortedClicked third hard medium easy
     hardPick mediumPick easyPick provisional selectedWords, g).

Definition loggedCounts (s : selection) : categoryCounts :=
  CategoryCounts (length (unseen s)) (length (seenUnclicked s))
    (length (clickedInLearning s)) (length (masteredByRepetition s))
    (length (masteredByReview s)).

(** The function as its caller sees it: the returned batch, the state of the
    random source, and the line it printed. *)
Definition selectSpacedRepetitionWords (g : rng) (allWords : list word)
    (storyUsage clickCount lastClickUsage : statMap)
  : list word * rng * categoryCounts :=
  let '(s, g') := selectSteps g allWords storyUsage clickCount lastClickUsage in
  (selectedWords s, g', loggedCounts s).

(** ** sanitizeWord *)

Definition isLeadSurrogate (u : N) : bool :=
  ((0xD800 <=? u) && (u <=? 0xDBFF))%N.

Definition isTrailSurrogate (u : N) : bool :=
  ((0xDC00 <=? u) && (u <=? 0xDFFF))%N.

Definition isSurrogate (u : N) : bool :=
  ((0xD800 <=? u) && (u <=? 0xDFFF))%N.

Definition surrogatePair (lead trail : N) : N :=
  (0x10000 + (lead - 0xD800) * 0x400 + (trail - 0xDC00))%N.

(** The code points a regular expression with the [u] flag sees, each with
    the code units that spell it: a lead surrogate followed by a trail
    surrogate is one code point, any other code unit (an unpaired surrogate
    too) is a code point of its own. *)
Fixpoint codePoints (s : jsstring) : list (N * jsstring) :=
  match s with
  | [] => []
  | u :: t =>
    match t with
    | v :: t' =>
      if isLeadSurrogate u && isTrailSurrogate v
      then (surrogatePair u v, [u; v]) :: codePoints t'
      else (u, [u]) :: codePoints t
    | [] => [(u, [u])]
    end
  end.

(** The ASCII rows of the general categories P* and S*: every printable
    ASCII character that is not a letter, a digit or the space, that is the
    ranges 21-2F, 3A-40, 5B-60 and 7B-7E (hexadecimal). *)
Definition asciiPunctOrSymbol (c : N) : bool :=
  (((0x21 <=? c) && (c <=? 0x2F)) || ((0x3A <=? c) && (c <=? 0x40))
   || ((0x5B <=? c) && (c <=? 0x60)) || ((0x7B <=? c) && (c <=? 0x7E)))%N.

(** White space and line terminators, the code units [trim] strips. *)
Definition isWhiteSpace (u : N) : bool :=
  (((0x09 <=? u) && (u <=? 0x0D)) || (u =? 0x20) || (u =? 0xA0)
   || (u =? 0x1680) || ((0x2000 <=? u) && (u <=? 0x200A))
   || (u =? 0x2028) || (u =? 0x2029) || (u =? 0x202F) || (u =? 0x205F)
   || (u =? 0x3000) || (u =? 0xFEFF))%N.

Fixpoint dropWhile {A} (p : A → bool) (l : list A) : list A :=
  match l with
  | [] => []
  | x :: l' => if p x then dropWhile p l' else l
  end.

(** [s.trim()]. *)
Definition trim (s : jsstring) : jsstring :=
  reverse (dropWhile isWhiteSpace (reverse (dropWhile isWhiteSpace s))).

Section Sanitize.
(** The rows of the Unicode Character Database beyond ASCII are not part
    of the program: [nonAsciiPS c] says whether the code point [c >= 0x80]
    has a general category in P* or S*. *)
Variable nonAsciiPS : N → bool.

(** The character class of the expression.  Surrogate code points have
    category Cs. *)
Definition isPunctOrSymbol (c : N) : bool :=
  if (c <? 0x80)%N then asciiPunctOrSymbol c
  else if isSurrogate c then false
  else nonAsciiPS c.

(** [s.replace(re, empty)] for the global, Unicode-aware expression
    that matches a run of P* or S* code points: every such run is cut out
    and what is left is joined. *)
Definition stripPunctSymbols (s : jsstring) : jsstring :=
  concat (map snd
    (filter (λ p, negb (isPunctOrSymbol (fst p))) (codePoints s))).

Definition sanitizeWord (word : jsstring) : jsstring :=
  trim (stripPunctSymbols word).
End Sanitize.

(** ** The Firestore documents *)

(** An element of the stored [words] array: the handler only asks whether it
    is a string. *)
Inductive jsval :=
  | JString (s : jsstring)
  | JOther.

(** The document [meta/wordStats]: three maps from a word to a number.  A
    map field that is absent reads as the empty object, like an empty map. *)
Record statsDoc := StatsDoc {
  storyUsage : statMap;
  clickCount : statMap;
  lastClickUsage : statMap
}.

(** The two documents the handlers use; [None] is a document that does not
    exist.  [wordBank] holds the [words] array of [meta/wordBank]. *)
Record firestore := Firestore {
  wordBank : option (list jsval);
  wordStats : option statsDoc
}.

Inductive docRef := WordBankRef | WordStatsRef.

(** The value written at a field: [increment(n)] or a plain number. *)
Inductive fieldValue :=
  | Increment (n : Z)
  | Num (v : Z).

(** [increment(n)] on an absent field stores [n]. *)
Definition fieldResult (v : fieldValue) (old : option Z) : Z :=
  match v with
  | Increment n => orZero old + n
  | Num x => x
  end.

(** The error codes an update can fail with. *)
Inductive firestoreError :=
  | NotFound
  | InvalidArgument.

Inductive writeResult :=
  | Written (d : statsDoc)
  | Failed (e : firestoreError).

(** [path.split('.')]. *)
Fixpoint splitDots (s : jsstring) : list jsstring :=
  match s with
  | [] => [[]]
  | u :: t =>
    if (u =? 0x2E)%N then [] :: splitDots t
    else match splitDots t with
         | seg :: rest => (u :: seg) :: rest
         | [] => [[u]]
         end
  end.

(** The characters a dotted field path must not contain: tilde, asterisk,
    slash and the square brackets. *)
Definition isReservedPathChar (u : N) : bool :=
  ((u =? 0x7E) || (u =? 0x2A) || (u =? 0x2F) || (u =? 0x5B) || (u =? 0x5D))%N.

Definition isEmptyString (s : jsstring) : bool :=
  match s with
  | [] => true
  | _ :: _ => false
  end.

(** The line terminators, which the dot of a regular expression does not
    match. *)
Definition isLineTerminator (u : N) : bool :=
  ((u =? 0x0A) || (u =? 0x0D) || (u =? 0x2028) || (u =? 0x2029))%N.

(** The field names the SDK keeps for itself: a name that begins and ends
    with two underscores, the expression [/^__.*__$/]. *)
Definition isReservedFieldName (s : jsstring) : bool :=
  match s with
  | a :: b :: rest =>
    match reverse rest with
    | y :: z :: middle =>
      (a =? 0x5F)%N && (b =? 0x5F)%N && (y =? 0x5F)%N && (z =? 0x5F)%N
      && negb (existsb isLineTerminator middle)
    | _ => false
    end
  | _ => false
  end.

(** The check the SDK makes on every field name of a write, a segment of
    an update path or a key of a map passed to [setDoc]: it is not empty
    and it is not reserved. *)
Definition isRefusedFieldName (s : jsstring) : bool :=
  isEmptyString s || isReservedFieldName s.

(** How [updateDoc] reads a string key: the segments between the dots, or
    [None] when the key is rejected (a reserved character, an empty
    segment or a reserved field name). *)
Definition fieldPathOf (path : jsstring) : option (list jsstring) :=
  if existsb isReservedPathChar path then None
  else
    let segments := splitDots path in
    if existsb isEmptyString segments then None
    else if existsb isReservedFieldName segments then None
    else Some segments.

(** A write at [<map>.<word>] for one of the three maps; [None] for any
    other path. *)
Definition writeEntry (d : statsDoc) (path : list jsstring) (v : fieldValue)
  : option statsDoc :=
  match path with
  | [m; k] =>
    if decide (m = str "storyUsage") then
      Some (StatsDoc (<[k := fieldResult v (storyUsage d !! k)]> (storyUsage d))
                     (clickCount d) (lastClickUsage d))
    else if decide (m = str "clickCount") then
      Some (StatsDoc (storyUsage d)
                     (<[k := fieldResult v (clickCount d !! k)]> (clickCount d))
                     (lastClickUsage d))
    else if decide (m = str "lastClickUsage") then
      Some (StatsDoc (storyUsage d) (clickCount d)
                     (<[k := fieldResult v (lastClickUsage d !! k)]>
                        (lastClickUsage d)))
    else None
  | _ => None
  end.

Fixpoint writeEntries (d : statsDoc) (ws : list (list jsstring * fieldValue))
  : option statsDoc :=
  match ws with
  | [] => Some d
  | (p, v) :: ws' =>
    match writeEntry d p v with
    | Some d' => writeEntries d' ws'
    | None => None
    end
  end.

Section Firestore.
(** What the store does with an update in which some path is not of the
    form [<map>.<word>] (a word with a dot addresses a nested field):
    such documents leave the three flat maps, and the store is not part
    of the program. *)
Variable nestedUpdate :
  statsDoc → list (list jsstring * fieldValue) → writeResult.

(** [updateDoc(statsRef, updates)]: the keys are parsed first, then the
    document must exist, then every field is written. *)
Definition updateDoc (doc : option statsDoc)
    (updates : list (jsstring * fieldValue)) : writeResult :=
  match mapM (λ u, (λ p, (p, snd u)) <$> fieldPathOf (fst u)) updates with
  | None => Failed InvalidArgument
  | Some ws =>
    match doc with
    | None => Failed NotFound
    | Some d =>
      match writeEntries d ws with
      | Some d' => Written d'
      | None => nestedUpdate d ws
      end
    end
  end.
End Firestore.

(** ** The event handlers *)

Inductive alertMessage :=
  | UploadWordsFirst
  | NeedAtLeast (need have : nat).

Inductive storyText :=
  | GeneratingStory
  | ErrorMessage (e : firestoreError).

(** What a handler does besides writing the store, in order. *)
Inductive event :=
  | GetDoc (r : docRef)
  | Alert (m : alertMessage)
  | ConsoleLogCounts (c : categoryCounts)
  | ConsoleLogClicked (w : word)
  | ConsoleLogCreated (w : word)
  | ConsoleError (e : firestoreError)
  | StoryInnerText (t : storyText)
  | DisplaySelectableStory (story : jsstring).

Record world := World {
  db : firestore;
  random : rng
}.

(** An object literal with string keys, in insertion order: writing an
    existing key replaces its value in place. *)
Definition objectSet {V} (k : jsstring) (v : V) (obj : list (jsstring * V))
  : list (jsstring * V) :=
  if bool_decide (k ∈ obj.*1)
  then map (λ e, if bool_decide (e.1 = k) then (k, v) else e) obj
  else obj ++ [(k, v)].

(** [selected.reduce(...)] building the keys [storyUsage.<w>]. *)
Definition usageUpdates (selected : list word)
  : list (jsstring * fieldValue) :=
  foldl (λ acc w, objectSet (str "storyUsage." ++ w) (Increment 1) acc)
        [] selected.

(** [selected.reduce(...)] building the first [storyUsage] map. *)
Definition initialUsage (selected : list word) : statMap :=
  foldl (λ o w, <[w := 1]> o) ∅ selected.

Section Handlers.
Variable nonAsciiPS : N → bool.
Variable nestedUpdate :
  statsDoc → list (list jsstring * fieldValue) → writeResult.
(** [String.prototype.normalize] with the form NFKC. *)
Variable normalizeNFKC : jsstring → jsstring.
(** The text the remote generation service returns for a batch. *)
Variable generateStory : list word → jsstring.

(** The stored array as the handler reads it: every element normalized,
    a non-string replaced by the empty string, empty strings dropped. *)
Definition loadWords (words : list jsval) : list word :=
  filter (λ w, negb (isEmptyString w))
    (map (λ v, match v with
               | JString s => normalizeNFKC s
               | JOther => []
               end) words).

(** The click listener of [fetchWords]. *)
Definition fetchWords (w : world) : world * list event :=
  match wordBank (db w) with
  | None => (w, [GetDoc WordBankRef; Alert UploadWordsFirst])
  | Some words =>
    let allWords := loadWords words in
    let stats := wordStats (db w) in
    let su := from_option storyUsage ∅ stats in
    let cc := from_option clickCount ∅ stats in
    let lcu := from_option lastClickUsage ∅ stats in
    if bool_decide (length allWords < NEW_BATCH_SIZE + MIX_SIZE)%nat then
      (w, [GetDoc WordBankRef; GetDoc WordStatsRef;
           Alert (NeedAtLeast (NEW_BATCH_SIZE + MIX_SIZE)
                              (length allWords))])
    else
      let '(selected, g, counts) :=
        selectSpacedRepetitionWords (random w) allWords su cc lcu in
      let written :=
        match stats with
        | Some _ => updateDoc nestedUpdate stats (usageUpdates selected)
        | None =>
          if existsb isRefusedFieldName selected then Failed InvalidArgument
          else Written (StatsDoc (initialUsage selected) ∅ ∅)
        end in
      let before :=
        [GetDoc WordBankRef; GetDoc WordStatsRef; ConsoleLogCounts counts] in
      match written with
      | Written d =>
        (World (Firestore (wordBank (db w)) (Some d)) g,
         before ++ [StoryInnerText GeneratingStory;
                   DisplaySelectableStory (generateStory selected)])
      | Failed e =>
        (World (db w) g,
         before ++ [ConsoleError e; StoryInnerText (ErrorMessage e)])
      end
  end.

(** [handleWordClick].  The value of [storyUsage[word] || 0] is a number,
    or the member the object inherits under the name [word]: a function,
    which is not a field value, so [updateDoc] throws [invalid-argument]
    before it reaches the store.  The usage count is read as the integer
    the store holds, as the program reads it up to 2^53. *)
Definition handleWordClick (rawWord : jsstring) (w : world)
  : world * list event :=
  let word := sanitizeWord nonAsciiPS rawWord in
  if isEmptyString word then (w, [])
  else
    let stats := wordStats (db w) in
    let su := from_option storyUsage ∅ stats in
    match orZeroOf (getProp su word) with
    | Some usage =>
      let updates :=
        [(str "clickCount." ++ word, Increment 1);
         (str "lastClickUsage." ++ word, Num usage)] in
      match updateDoc nestedUpdate stats updates with
      | Written d =>
        (World (Firestore (wordBank (db w)) (Some d)) (random w),
         [GetDoc WordStatsRef; ConsoleLogClicked word])
      | Failed NotFound =>
        (World (Firestore (wordBank (db w))
                  (Some (StatsDoc ∅ {[word := 1]} {[word := usage]})))
               (random w),
         [GetDoc WordStatsRef; ConsoleLogCreated word])
      | Failed e => (w, [GetDoc WordStatsRef; ConsoleError e])
      end
    | None => (w, [GetDoc WordStatsRef; ConsoleError InvalidArgument])
    end.

(** The click listener of a story token. *)
Definition spanClick (token : jsstring) (w : world) : world * list event :=
  let clicked := sanitizeWord nonAsciiPS token in
  if isEmptyString clicked then (w, []) else handleWordClick clicked w.
End Handlers.

(** * The vocabulary of the specification *)

(** ** Statistics *)

(** Every stored value of the map is a non-negative integer. *)
Definition nonNegative (m : statMap) : Prop :=
  map_Forall (λ _ v, 0 ≤ v) m.

(** [w] is not a clicked word whose stored usage count is the number 0.  The
    handlers never store such an entry: a usage count is created by
    [increment(1)] or as 1. *)
Definition noZeroUsageClicked (su cc : statMap) (w : word) : Prop :=
  ¬ (su !! w = Some 0 ∧ 0 < orZero (cc !! w)).

#[global] Instance noZeroUsageClicked_dec su cc w :
  Decision (noZeroUsageClicked su cc w).
Proof. unfold noZeroUsageClicked. apply _. Defined.

#[global] Instance nonNegative_dec m : Decision (nonNegative m).
Proof. unfold nonNegative. apply _. Defined.

(** The read [m[w]] finds a stored number or nothing, and no inherited
    member: [w] is stored in [m] or is not the name of such a member. *)
Definition plainRead (m : statMap) (w : word) : Prop :=
  getProp m w ≠ PMember.

(** An integer that a JavaScript number holds exactly, as
    [Number.isSafeInteger] has it. *)
Definition safeInteger (v : Z) : Prop :=
  - (2 ^ 53 - 1) ≤ v ≤ 2 ^ 53 - 1.

#[global] Instance safeInteger_dec v : Decision (safeInteger v).
Proof. unfold safeInteger. apply _. Defined.

(** Ascending order of the click counts (an absent count is 0). *)
Definition clicksLe (cc : statMap) (a b : word) : Prop :=
  orZero (cc !! a) ≤ orZero (cc !! b).

(** ** The selector *)

(** The relations between the local variables of a call, whatever the random
    source draws. *)
Record selectionFacts (allWords : list word) (su cc lcu : statMap)
    (s : selection) : Prop := SelectionFacts {
  sf_unseen : unseen s = tierWords su cc lcu Unseen allWords;
  sf_seenUnclicked : seenUnclicked s = tierWords su cc lcu SeenUnclicked allWords;
  sf_clicked :
    clickedInLearning s = tierWords su cc lcu ClickedInLearning allWords;
  sf_masteredRep :
    masteredByRepetition s = tierWords su cc lcu MasteredByRepetition allWords;
  sf_masteredReview :
    masteredByReview s = tierWords su cc lcu MasteredByReview allWords;
  sf_sorted :
    sortedClicked s = arraySort (byClickCount cc) (clickedInLearning s);
  sf_third : third s = ceilThird (length (sortedClicked s));
  sf_hard : hard s = slice 0 (third s) (sortedClicked s);
  sf_medium : medium s = slice (third s) (2 * third s) (sortedClicked s);
  sf_easy : easy s = drop (2 * third s) (sortedClicked s);
  sf_batchNew : batchNew s ⊆+ unseen s;
  sf_batchNew_length :
    length (batchNew s) = Nat.min (length (unseen s)) NEW_BATCH_SIZE;
  sf_hardPick : hardPick s ⊆+ hard s;
  sf_hardPick_length :
    length (hardPick s) = Nat.min (length (hard s)) HARD_QUOTA;
  sf_mediumPick : mediumPick s ⊆+ medium s;
  sf_mediumPick_length :
    length (mediumPick s) = Nat.min (length (medium s)) MEDIUM_QUOTA;
  sf_easyPick : easyPick s ⊆+ easy s;
  sf_easyPick_length :
    length (easyPick s) = Nat.min (length (easy s)) EASY_QUOTA;
  sf_provisional :
    provisional s = batchNew s ++ hardPick s ++ mediumPick s ++ easyPick s;
  sf_backfill :
    ∃ fill,
      selectedWords s = provisional s ++ fill
      ∧ fill ⊆+ fallbackPool (unseen s) (seenUnclicked s) (sortedClicked s)
                  (provisional s)
      ∧ length fill =
          Nat.min (length (fallbackPool (unseen s) (seenUnclicked s)
                             (sortedClicked s) (provisional s)))
                  (TARGET_BATCH_SIZE - length (provisional s))
}.

(** ** Strings *)

(** A code point together with its spelling: one code unit standing for
    itself, or a lead and a trail surrogate standing for their pair. *)
Definition spelled (p : N * jsstring) : Prop :=
  p.2 = [p.1]
  ∨ ∃ u v, isLeadSurrogate u = true ∧ isTrailSurrogate v = true
           ∧ p = (surrogatePair u v, [u; v]).

(** A well-formed string has no unpaired surrogate. *)
Definition wellFormed (s : jsstring) : Prop :=
  Forall (λ p, isSurrogate p.1 = false) (codePoints s).

#[global] Instance wellFormed_dec s : Decision (wellFormed s).
Proof. unfold wellFormed. apply _. Defined.

(** Comparisons of code units, as propositions for [lia]. *)
Ltac nlia :=
  repeat (progress rewrite ?andb_true_iff, ?orb_true_iff, ?andb_false_iff,
    ?orb_false_iff, ?N.leb_le, ?N.leb_gt, ?N.eqb_eq, ?N.eqb_neq, ?N.ltb_lt,
    ?N.ltb_ge in *);
  lia.

(** No code point of the string is an unpaired surrogate, a punctuation mark
    or a symbol. *)
Definition clean (nonAsciiPS : N → bool) (s : jsstring) : Prop :=
  Forall (λ p, isSurrogate p.1 = false
               ∧ isPunctOrSymbol nonAsciiPS p.1 = false) (codePoints s).

(** ** Example data *)

(** The universe and the statistics of the examples: [wA] was never shown,
    [wB] was shown three times and never clicked, [wC] is in learning. *)
Definition wA : word := str "Apfel".
Definition wB : word := str "Birne".
Definition wC : word := str "Chor".
Definition exampleUsage : statMap := {[wB := 3; wC := 5]}.
Definition exampleClicks : statMap := {[wC := 2]}.
Definition exampleLastClick : statMap := {[wC := 4]}.
Definition exampleRng : rng := Rng (λ i, (7 * i + 3)%nat) 0.

(** A universe of 120 distinct two-letter words, [Aa] to [Ep]. *)
Definition manyWords : list word :=
  map (λ i, [0x41 + N.of_nat (i / 26); 0x61 + N.of_nat (i mod 26)]%N)
      (seq 0 120).

(** An excerpt of the character database beyond ASCII: the Emoticons block
    U+1F600..U+1F64F, whose code points all have the category So. *)
Definition emoticonBlock (c : N) : bool :=
  ((0x1F600 <=? c) && (c <=? 0x1F64F))%N.

(** A store that refuses nested field paths, the normalization of strings
    that are already normalized, and a service that answers with the words
    it was given. *)
Definition rejectNested (d : statsDoc)
    (ws : list (list jsstring * fieldValue)) : writeResult :=
  Failed InvalidArgument.

Definition alreadyNormalized (s : jsstring) : jsstring := s.

Definition echoStory (ws : list word) : jsstring := concat ws.

Definition exampleStats : statsDoc :=
  StatsDoc exampleUsage exampleClicks exampleLastClick.

(** A store with three words, a store with 120 words, and a store without
    a statistics record. *)
Definition smallWorld : world :=
  World (Firestore (Some [JString wA; JString wB; JString wC])
                   (Some exampleStats)) exampleRng.

Definition largeWorld : world :=
  World (Firestore (Some (map JString manyWords)) (Some exampleStats))
        exampleRng.

Definition freshWorld : world :=
  World (Firestore (Some [JString wA; JString wB; JString wC]) None)
        exampleRng.

(** * Further models and vocabulary *)

(** The words the selector may draw: the three tiers that are not
    mastered. *)
Definition selectable (su cc lcu : statMap) (allWords : list word)
  : list word :=
  tierWords su cc lcu Unseen allWords
  ++ tierWords su cc lcu SeenUnclicked allWords
  ++ tierWords su cc lcu ClickedInLearning allWords.

(** [arrayUnion(...elements)] applied to a stored array: every element the
    array does not hold yet is appended, in the order given. *)
Definition arrayUnion {A} `{EqDecision A} (stored elements : list A)
  : list A :=
  foldl (λ acc x, if bool_decide (x ∈ acc) then acc else acc ++ [x])
        stored elements.

(** A word that can stand as the last segment of a dotted field path: not
    empty, no dot, no reserved character, and not a reserved field name. *)
Definition fieldSafe (w : word) : Prop :=
  w ≠ [] ∧ Forall (λ u, u ≠ 0x2E%N ∧ isReservedPathChar u = false) w
  ∧ isReservedFieldName w = false.

#[global] Instance fieldSafe_dec w : Decision (fieldSafe w).
Proof. unfold fieldSafe. apply _. Defined.

(** Stores with exactly 100 words: with and without a statistics record,
    and one whose first word holds a slash. *)
Definition hundredWords : list word := take 100 manyWords.


Definition freshHundredWorld : world :=
  World (Firestore (Some (map JString hundredWords)) None) exampleRng.


(** ** The upload handler *)

#[global] Instance jsval_eq_dec : EqDecision jsval.
Proof. solve_decision. Defined.

Inductive uploadAlert :=
  | SelectFileFirst
  | UnsupportedFileType
  | AllWordsExist
  | WordsAdded (n : nat)
  | BankCreated (n : nat).

(** [uploadToFirestore(newWords)] on the document [meta/wordBank]: the new
    state of the document and the alert. *)
Definition uploadToFirestore (newWords : list jsstring)
    (bank : option (list jsval)) : option (list jsval) * list uploadAlert :=
  match bank with
  | Some existing =>
    let unique := filter (λ w, JString w ∉ existing) newWords in
    match unique with
    | [] => (bank, [AllWordsExist])
    | _ :: _ =>
      (Some (arrayUnion existing (map JString unique)),
       [WordsAdded (length unique)])
    end
  | None => (Some (map JString newWords), [BankCreated (length newWords)])
  end.

(** [text.charCodeAt(0) === 0xFEFF] and [slice(1)]. *)
Definition stripBOM (text : jsstring) : jsstring :=
  match text with
  | u :: t => if (u =? 0xFEFF)%N then t else text
  | [] => []
  end.

Definition isListSeparator (u : N) : bool :=
  ((u =? 0x2C) || (u =? 0x3B) || (u =? 0x7C))%N.

(** [text.split(re)] for the expression that matches a line feed, alone or
    after a carriage return, or a run of commas, semicolons and bars.
    [cur] is the piece being read and [inRun] says that the last code unit
    belonged to a run of separators. *)
Fixpoint splitList (cur : jsstring) (inRun : bool) (s : jsstring)
  : list jsstring :=
  match s with
  | [] => [cur]
  | u :: t =>
    if isListSeparator u then
      if inRun then splitList [] true t else cur :: splitList [] true t
    else if (u =? 0x0A)%N then cur :: splitList [] false t
    else
      match t with
      | v :: t' =>
        if (u =? 0x0D)%N && (v =? 0x0A)%N then cur :: splitList [] false t'
        else splitList (cur ++ [u]) false t
      | [] => [cur ++ [u]]
      end
  end.

Section Upload.
(** [String.prototype.normalize] with the form NFC, [toLowerCase], and the
    rows of fields the CSV parser returns for a text. *)
Variable normalizeNFC : jsstring → jsstring.
Variable toLowerCase : jsstring → jsstring.
Variable papaParse : jsstring → list (list jsstring).

(** The words of a text file. *)
Definition parseTxt (text : jsstring) : list jsstring :=
  filter (λ w, negb (isEmptyString w))
    (map trim (splitList [] false (normalizeNFC (stripBOM text)))).

(** The words of a CSV file. *)
Definition parseCsv (text : jsstring) : list jsstring :=
  filter (λ w, negb (isEmptyString w)) (map trim (concat (papaParse text))).

(** The click listener of [uploadWords]; a file is its name and its decoded
    text. *)
Definition uploadWords (file : option (jsstring * jsstring))
    (store : firestore) : firestore * list uploadAlert :=
  match file with
  | None => (store, [SelectFileFirst])
  | Some (name, text) =>
    let fileExt := toLowerCase (default [] (last (splitDots name))) in
    if decide (fileExt = str "csv") then
      let '(bank, alerts) :=
        uploadToFirestore (parseCsv text) (wordBank store) in
      (Firestore bank (wordStats store), alerts)
    else if decide (fileExt = str "txt") then
      let '(bank, alerts) :=
        uploadToFirestore (parseTxt text) (wordBank store) in
      (Firestore bank (wordStats store), alerts)
    else (store, [UnsupportedFileType])
  end.
End Upload.

(** A word as a word list should hold it: not empty, no white space at
    either end, no comma, semicolon, bar or line feed. *)
Definition cleanWord (w : jsstring) : Prop :=
  w ≠ []
  ∧ (∀ u, head w = Some u ∨ last w = Some u → isWhiteSpace u = false)
  ∧ Forall (λ u, isListSeparator u = false ∧ u ≠ 0x0A%N) w.

(** The words written one per line. *)
Fixpoint joinLines (ws : list jsstring) : jsstring :=
  match ws with
  | [] => []
  | w :: rest =>
    match rest with
    | [] => w
    | _ :: _ => w ++ 0x0A%N :: joinLines rest
    end
  end.

(** ** displaySelectableStory *)

(** What the story container holds: a text node, or a span with a click
    listener (the listener of the span of [token] is [spanClick token]). *)
Inductive storyNode :=
  | TextNode (text : jsstring)
  | Span (token : jsstring).

Definition nodeText (n : storyNode) : jsstring :=
  match n with
  | TextNode t => t
  | Span t => t
  end.

(** [text.split(re)] for the expression that captures a run of white space:
    the pieces between the runs and the runs themselves, alternating.  [cur]
    is the token being read and [inSpace] says that it is a run of white
    space. *)
Fixpoint splitWhiteSpace (cur : jsstring) (inSpace : bool) (s : jsstring)
  : list jsstring :=
  match s with
  | [] => if inSpace then [cur; []] else [cur]
  | u :: t =>
    if isWhiteSpace u then
      if inSpace then splitWhiteSpace (cur ++ [u]) true t
      else cur :: splitWhiteSpace [u] true t
    else
      if inSpace then cur :: splitWhiteSpace [u] false t
      else splitWhiteSpace (cur ++ [u]) false t
  end.

Definition displaySelectableStory (text : jsstring) : list storyNode :=
  map (λ token, if isEmptyString (trim token) then TextNode token
                else Span token)
      (splitWhiteSpace [] false text).

(** ** The earlier click logger *)

(** The version of the handlers that logs clicked words in the document
    [meta/wordClicks]; [None] is the missing document. *)
Module Legacy.
Definition handleWordClick (word : jsstring) (clicks : option (list jsstring))
  : option (list jsstring) :=
  match clicks with
  | Some logged => Some (arrayUnion logged [word])
  | None => Some [word]
  end.
End Legacy.

(** ** Proof tactics *)

Ltac next_pick H :=
  match goal with
  | |- context [pickRandom ?g ?l ?n] =>
    destruct (pickRandom g l n) as [? ?] eqn:H; cbv beta iota
  end.

(** * Properties *)

(** ** pickRandom draws without replacement *)

Lemma randomIndex_lt g len : (0 < len)%nat → ((randomIndex g len).1 < len)%nat.
Proof. intros Hlen. cbn. apply Nat.mod_upper_bound. lia. Qed.

Lemma pickRandom_submseteq {A} (g g' : rng) (l picked : list A) n :
  pickRandom g l n = (picked, g') → picked ⊆+ l.
Proof.
  revert g g' l picked.
  induction n as [|n IH]; intros g g' l picked; cbn [pickRandom].
  - intros [= <- _]. apply submseteq_nil_l.
  - destruct l as [|a l]; [intros [= <- _]; apply submseteq_nil_l|].
    destruct (randomIndex g (length (a :: l))) as [idx g1].
    destruct ((a :: l) !! idx) as [x|] eqn:Hidx;
      [|intros [= <- _]; apply submseteq_nil_l].
    destruct (pickRandom g1 (delete idx (a :: l)) n) as [p g2] eqn:Hrec.
    intros [= <- _]. apply IH in Hrec.
    rewrite (delete_Permutation (a :: l) idx x Hidx).
    by apply submseteq_skip.
Qed.

Lemma pickRandom_length {A} (g g' : rng) (l picked : list A) n :
  pickRandom g l n = (picked, g') → length picked = Nat.min n (length l).
Proof.
  revert g g' l picked.
  induction n as [|n IH]; intros g g' l picked; cbn [pickRandom].
  - by intros [= <- _].
  - destruct l as [|a l]; [by intros [= <- _]|].
    pose proof (randomIndex_lt g (length (a :: l))) as Hlt.
    destruct (randomIndex g (length (a :: l))) as [idx g1].
    cbn [fst] in Hlt.
    destruct (lookup_lt_is_Some_2 (a :: l) idx) as [x Hx];
      [apply Hlt; cbn; lia|].
    rewrite Hx.
    destruct (pickRandom g1 (delete idx (a :: l)) n) as [p g2] eqn:Hrec.
    intros [= <- _]. apply IH in Hrec.
    cbn [length]. rewrite Hrec, length_delete by eauto.
    cbn [length]. lia.
Qed.

Lemma pickRandom_elem_of {A} (g g' : rng) (l picked : list A) n x :
  pickRandom g l n = (picked, g') → x ∈ picked → x ∈ l.
Proof.
  intros Hp Hx. eapply elem_of_submseteq; [done|]. by eapply pickRandom_submseteq.
Qed.

Lemma submseteq_NoDup {A} (l k : list A) : l ⊆+ k → NoDup k → NoDup l.
Proof.
  intros Hsub Hk. apply submseteq_Permutation in Hsub as [r Hr].
  rewrite Hr in Hk. by apply NoDup_app in Hk as [? _].
Qed.

Lemma pickRandom_NoDup {A} (g g' : rng) (l picked : list A) n :
  pickRandom g l n = (picked, g') → NoDup l → NoDup picked.
Proof. intros Hp. apply submseteq_NoDup. by eapply pickRandom_submseteq. Qed.

(** ** The review sort *)

Lemma insertSorted_Permutation {A} (cmp : A → A → Z) x l :
  insertSorted cmp x l ≡ₚ x :: l.
Proof.
  induction l as [|y l IH]; cbn; [done|].
  destruct (cmp x y <=? 0); [done|]. rewrite IH. apply Permutation_swap.
Qed.

Lemma arraySort_Permutation {A} (cmp : A → A → Z) l : arraySort cmp l ≡ₚ l.
Proof.
  induction l as [|x l IH]; cbn; [done|].
  rewrite insertSorted_Permutation. by rewrite IH.
Qed.

Lemma arraySort_length {A} (cmp : A → A → Z) l :
  length (arraySort cmp l) = length l.
Proof. by rewrite arraySort_Permutation. Qed.

(** ** Property reads *)

Lemma numOf_getProp (m : statMap) w : numOf (getProp m w) = m !! w.
Proof. unfold getProp. destruct (m !! w); [done|]. by case_match. Qed.

Lemma orZeroOf_plain (m : statMap) w :
  plainRead m w → orZeroOf (getProp m w) = Some (orZero (m !! w)).
Proof.
  unfold plainRead, getProp. destruct (m !! w); cbn; [done|].
  by case_match.
Qed.

Lemma plainRead_stored (m : statMap) w v : m !! w = Some v → plainRead m w.
Proof. unfold plainRead, getProp. by intros ->. Qed.

Lemma plainRead_not_member (m : statMap) w :
  isPrototypeMember w = false → plainRead m w.
Proof.
  unfold plainRead, getProp. intros ->. by destruct (m !! w).
Qed.

Lemma gtNum_plainRead (m : statMap) w k :
  gtNum (orZeroOf (getProp m w)) k = true → plainRead m w.
Proof.
  unfold plainRead. by destruct (getProp m w).
Qed.

(** The reads of the five filters, as case distinctions for [lia]. *)
Ltac reads :=
  unfold isUnseen, isSeenUnclicked, isClickedInLearning,
    isMasteredByRepetition, isMasteredByReview, byClickCount, plainRead,
    getProp, MASTER_THRESHOLD, REVIEW_THRESHOLD in *;
  repeat match goal with
    | |- context [lookup ?w ?m] =>
      lazymatch type of m with gmap _ _ => idtac end;
      let v := fresh "v" in let E := fresh "E" in
      destruct (lookup w m) as [v|] eqn:E
    | H : context [lookup ?w ?m] |- _ =>
      lazymatch type of m with gmap _ _ => idtac end;
      lazymatch type of H with lookup w m = _ => fail | _ => idtac end;
      let v := fresh "v" in let E := fresh "E" in
      destruct (lookup w m) as [v|] eqn:E
    | |- context [isPrototypeMember ?w] =>
      let E := fresh "E" in destruct (isPrototypeMember w) eqn:E
    | H : context [isPrototypeMember ?w] |- _ =>
      lazymatch type of H with isPrototypeMember w = _ => fail | _ => idtac end;
      let E := fresh "E" in destruct (isPrototypeMember w) eqn:E
    end;
  cbn [orZero orZeroOf numOf subNums eqNum gtNum ltNum geNum] in *.

Lemma byClickCount_plain cc a b :
  plainRead cc a → plainRead cc b →
  byClickCount cc a b = orZero (cc !! a) - orZero (cc !! b).
Proof.
  intros Ha Hb. unfold byClickCount.
  by rewrite (orZeroOf_plain cc a), (orZeroOf_plain cc b).
Qed.

Lemma insertSorted_sorted cc x l :
  plainRead cc x → Forall (plainRead cc) l →
  StronglySorted (clicksLe cc) l →
  StronglySorted (clicksLe cc) (insertSorted (byClickCount cc) x l).
Proof.
  intros Hx Hl Hs. revert Hl.
  induction Hs as [|y l Hl' IH Hy]; intros Hl; cbn.
  - repeat constructor.
  - apply Forall_cons in Hl as [Hy' Hl].
    rewrite byClickCount_plain by done.
    destruct (Z.leb_spec (orZero (cc !! x) - orZero (cc !! y)) 0) as [Hle|Hgt].
    + constructor; [by constructor|].
      constructor; [unfold clicksLe; lia|].
      eapply Forall_impl; [exact Hy|]. unfold clicksLe. intros z ?. lia.
    + constructor; [by apply IH|].
      rewrite insertSorted_Permutation.
      constructor; [unfold clicksLe; lia|done].
Qed.

Lemma arraySort_sorted cc l :
  Forall (plainRead cc) l →
  StronglySorted (clicksLe cc) (arraySort (byClickCount cc) l).
Proof.
  induction 1 as [|x l Hx Hl IH]; [constructor|].
  change (arraySort (byClickCount cc) (x :: l))
    with (insertSorted (byClickCount cc) x (arraySort (byClickCount cc) l)).
  apply insertSorted_sorted; [done| |done].
  by rewrite arraySort_Permutation.
Qed.

(** ** The three bands *)

Lemma ceilThird_spec n :
  (n ≤ 3 * ceilThird n ∧ 3 * ceilThird n < n + 3)%nat.
Proof.
  unfold ceilThird.
  pose proof (Nat.div_mod_eq (n + 2) 3).
  pose proof (Nat.mod_upper_bound (n + 2) 3). lia.
Qed.

Lemma bands_app {A} (l : list A) t :
  slice 0 t l ++ slice t (2 * t) l ++ drop (2 * t) l = l.
Proof.
  unfold slice. rewrite drop_0, Nat.sub_0_r.
  replace (2 * t - t)%nat with t by lia.
  replace (2 * t)%nat with (t + t)%nat by lia.
  rewrite <- (drop_drop l t t).
  by rewrite take_drop, take_drop.
Qed.

(** ** What one call of the selector computes *)

Lemma selectSteps_facts g allWords su cc lcu :
  selectionFacts allWords su cc lcu (selectSteps g allWords su cc lcu).1.
Proof.
  unfold selectSteps. cbv zeta.
  next_pick Hnew. next_pick Hhard. next_pick Hmedium. next_pick Heasy.
  destruct (bool_decide _) eqn:Hshort.
  - next_pick Hfill. cbn [fst].
    constructor; cbn [unseen seenUnclicked clickedInLearning
      masteredByRepetition masteredByReview sortedClicked third hard medium
      easy batchNew hardPick mediumPick easyPick provisional selectedWords];
      try reflexivity;
      try (eapply pickRandom_submseteq; eassumption);
      try (erewrite pickRandom_length by eassumption; lia).
    eexists. split; [reflexivity|]. split.
    + eapply pickRandom_submseteq; eassumption.
    + erewrite pickRandom_length by eassumption. lia.
  - cbn [fst].
    constructor; cbn [unseen seenUnclicked clickedInLearning
      masteredByRepetition masteredByReview sortedClicked third hard medium
      easy batchNew hardPick mediumPick easyPick provisional selectedWords];
      try reflexivity;
      try (eapply pickRandom_submseteq; eassumption);
      try (erewrite pickRandom_length by eassumption; lia).
    exists []. rewrite app_nil_r. split; [done|].
    split; [apply submseteq_nil_l|].
    apply bool_decide_eq_false in Hshort. cbn [length]. lia.
Qed.

Lemma selectSpacedRepetitionWords_batch g allWords su cc lcu :
  (selectSpacedRepetitionWords g allWords su cc lcu).1.1
  = selectedWords (selectSteps g allWords su cc lcu).1.
Proof.
  unfold selectSpacedRepetitionWords.
  by destruct (selectSteps g allWords su cc lcu).
Qed.

(** ** The tiers *)

Lemma elem_of_tierWords su cc lcu t allWords w :
  w ∈ tierWords su cc lcu t allWords ↔ inTier su cc lcu t w = true ∧ w ∈ allWords.
Proof.
  unfold tierWords. rewrite list_elem_of_filter.
  by rewrite Is_true_true.
Qed.

Lemma unseen_not_seenUnclicked su cc w :
  isUnseen su w = true → isSeenUnclicked su cc w = true → False.
Proof. intros. reads; lia. Qed.

Lemma seenUnclicked_not_clicked su cc lcu w :
  isSeenUnclicked su cc w = true → isClickedInLearning su cc lcu w = true →
  False.
Proof. intros. reads; lia. Qed.

Lemma unseen_not_clicked su cc lcu w :
  noZeroUsageClicked su cc w →
  isUnseen su w = true → isClickedInLearning su cc lcu w = true → False.
Proof.
  unfold noZeroUsageClicked. intros Hz Hu Hc.
  destruct (su !! w) as [v|] eqn:Esu.
  - apply Hz. unfold isUnseen, isClickedInLearning, getProp in *.
    rewrite Esu in *. cbn in Hu. apply Z.eqb_eq in Hu as ->.
    split; [done|]. apply andb_true_iff in Hc as [Hc _].
    destruct (cc !! w); cbn in *; [lia|]. by case_match.
  - unfold isClickedInLearning in Hc. rewrite numOf_getProp, Esu in Hc.
    cbn in Hc. by rewrite andb_false_r in Hc.
Qed.

(** A word the click filter keeps has a stored click count, a stored
    usage count, and a last-click count that reads as a number. *)
Lemma clicked_reads su cc lcu w :
  isClickedInLearning su cc lcu w = true →
  plainRead cc w ∧ 0 < orZero (cc !! w)
  ∧ ∃ v, su !! w = Some v ∧ plainRead lcu w
         ∧ v - orZero (lcu !! w) < REVIEW_THRESHOLD.
Proof.
  intros H. apply andb_true_iff in H as [Hc Hd].
  rewrite numOf_getProp in Hd.
  pose proof (gtNum_plainRead _ _ _ Hc) as Hp.
  rewrite (orZeroOf_plain _ _ Hp) in Hc. cbn in Hc.
  split; [done|]. split; [lia|].
  destruct (su !! w) as [v|]; [|done]. exists v. split; [done|].
  assert (plainRead lcu w) as Hl.
  { unfold plainRead. intros E. by rewrite E in Hd. }
  split; [done|]. rewrite (orZeroOf_plain _ _ Hl) in Hd. cbn in Hd.
  unfold REVIEW_THRESHOLD in *. lia.
Qed.

(** The three tiers the selector draws from exclude the two mastered ones. *)
Lemma selectable_not_mastered su cc lcu w t :
  nonNegative lcu →
  t ∈ [Unseen; SeenUnclicked; ClickedInLearning] →
  inTier su cc lcu t w = true →
  isMasteredByRepetition su cc w = false
  ∧ isMasteredByReview su cc lcu w = false.
Proof.
  intros Hl Ht Hin.
  assert (0 ≤ orZero (lcu !! w)) as Hlw.
  { destruct (lcu !! w) as [v|] eqn:E; cbn; [by eapply Hl|done]. }
  rewrite !elem_of_cons, elem_of_nil in Ht.
  destruct Ht as [-> | [-> | [-> | []]]]; cbn [inTier] in Hin;
    reads; split; lia.
Qed.

(** The five filters on one word whose reads find no inherited member:
    exactly one of them holds. *)
Lemma tier_exclusive su cc lcu w :
  nonNegative su → nonNegative cc → noZeroUsageClicked su cc w →
  isPrototypeMember w = false →
  ∃ t, ∀ t', inTier su cc lcu t' w = true ↔ t' = t.
Proof.
  intros Hsu Hcc Hz Hw.
  assert (0 ≤ orZero (cc !! w)) as Hc.
  { destruct (cc !! w) as [v|] eqn:E; cbn; [by eapply Hcc|done]. }
  assert (su !! w = Some 0 → orZero (cc !! w) = 0) as Hz'.
  { intros E. unfold noZeroUsageClicked in Hz.
    destruct (decide (0 < orZero (cc !! w))); [by destruct Hz|lia]. }
  assert (∀ m : statMap, orZeroOf (getProp m w) = Some (orZero (m !! w)))
    as Hread.
  { intros m. by apply orZeroOf_plain, plainRead_not_member. }
  clear Hz Hcc.
  destruct (su !! w) as [v|] eqn:Esu.
  - assert (0 ≤ v) as Hv by by eapply Hsu.
    destruct (decide (v = 0)) as [->|Hv0].
    { exists Unseen. specialize (Hz' eq_refl).
      intros []; cbn [inTier];
        unfold isUnseen, isSeenUnclicked, isClickedInLearning,
          isMasteredByRepetition, isMasteredByReview, MASTER_THRESHOLD;
        rewrite ?numOf_getProp, ?Hread, ?Esu;
        cbn [orZero eqNum gtNum ltNum geNum subNums]; split;
        try discriminate; try done; lia. }
    destruct (decide (orZero (cc !! w) = 0)) as [Hc0|Hc0].
    { destruct (decide (v < MASTER_THRESHOLD)) as [Hlt|Hge];
        [exists SeenUnclicked | exists MasteredByRepetition];
        intros []; cbn [inTier];
        unfold isUnseen, isSeenUnclicked, isClickedInLearning,
          isMasteredByRepetition, isMasteredByReview, MASTER_THRESHOLD in *;
        rewrite ?numOf_getProp, ?Hread, ?Esu;
        cbn [orZero eqNum gtNum ltNum geNum subNums]; split;
        try discriminate; try done; lia. }
    destruct (decide (v - orZero (lcu !! w) < REVIEW_THRESHOLD)) as [Hlt|Hge];
      [exists ClickedInLearning | exists MasteredByReview];
      intros []; cbn [inTier];
      unfold isUnseen, isSeenUnclicked, isClickedInLearning,
        isMasteredByRepetition, isMasteredByReview, MASTER_THRESHOLD,
        REVIEW_THRESHOLD in *;
      rewrite ?numOf_getProp, ?Hread, ?Esu;
      cbn [orZero eqNum gtNum ltNum geNum subNums]; split;
      try discriminate; try done; lia.
  - exists Unseen.
    intros []; cbn [inTier];
      unfold isUnseen, isSeenUnclicked, isClickedInLearning,
        isMasteredByRepetition, isMasteredByReview, MASTER_THRESHOLD;
      rewrite ?numOf_getProp, ?Hread, ?Esu;
      cbn [orZero eqNum gtNum ltNum geNum subNums]; split;
      try discriminate; try done; lia.
Qed.

(** A word that names an inherited member and is stored in no map is kept
    by none of the five filters: every comparison with the member is
    false. *)
Lemma inherited_member_in_no_tier su cc lcu w t :
  isPrototypeMember w = true → su !! w = None →
  inTier su cc lcu t w = false.
Proof.
  intros Hw Hsu.
  destruct t; cbn [inTier];
    unfold isUnseen, isSeenUnclicked, isClickedInLearning,
      isMasteredByRepetition, isMasteredByReview;
    rewrite ?numOf_getProp, ?Hsu; unfold getProp; rewrite ?Hsu, ?Hw; cbn;
    by rewrite ?andb_false_r.
Qed.

Lemma tiersOf_spec su cc lcu w t :
  (∀ t', inTier su cc lcu t' w = true ↔ t' = t) → tiersOf su cc lcu w = [t].
Proof.
  intros Ht. unfold tiersOf, allTiers.
  assert (∀ t', inTier su cc lcu t' w = bool_decide (t' = t)) as Hb.
  { intros t'. destruct (inTier su cc lcu t' w) eqn:E.
    - apply Ht in E as ->. by rewrite bool_decide_eq_true_2.
    - rewrite bool_decide_eq_false_2; [done|].
      intros ->. rewrite (proj2 (Ht t) eq_refl) in E. done. }
  rewrite !filter_cons, filter_nil, !Hb.
  destruct t; reflexivity.
Qed.

(** The scenarios of the specification, and a word that was clicked without
    ever being shown: its usage count is absent, the difference is not a
    number, and only the Unseen filter keeps it. *)
Example tier_mastered_by_repetition :
  tiersOf {[wA := 25]} ∅ ∅ wA = [MasteredByRepetition].
Proof. by vm_compute. Qed.

Example tier_mastered_by_review :
  tiersOf {[wA := 30]} {[wA := 3]} {[wA := 5]} wA = [MasteredByReview].
Proof. by vm_compute. Qed.

Example tier_clicked_in_learning :
  tiersOf {[wA := 15]} {[wA := 3]} {[wA := 5]} wA = [ClickedInLearning].
Proof. by vm_compute. Qed.

Example tier_clicked_never_shown :
  tiersOf ∅ {[wA := 1]} {[wA := 0]} wA = [Unseen].
Proof. by vm_compute. Qed.

(** A word that names an inherited member falls in no tier until a usage
    count is stored for it. *)
Example tier_inherited_member :
  tiersOf ∅ ∅ ∅ (str "constructor") = []
  ∧ tiersOf {[str "constructor" := 3]} {[str "constructor" := 0]} ∅
      (str "constructor") = [SeenUnclicked].
Proof. by vm_compute. Qed.

(** ** The batch *)

(** What follows from the relations between the local variables alone. *)
Section Batch.
Variable allWords : list word.
Variables su cc lcu : statMap.
Variable s : selection.
Hypothesis facts : selectionFacts allWords su cc lcu s.

Lemma bands_sorted : hard s ++ medium s ++ easy s = sortedClicked s.
Proof.
  rewrite (sf_hard _ _ _ _ _ facts), (sf_medium _ _ _ _ _ facts),
    (sf_easy _ _ _ _ _ facts).
  apply bands_app.
Qed.

Lemma sortedClicked_Permutation :
  sortedClicked s ≡ₚ tierWords su cc lcu ClickedInLearning allWords.
Proof.
  rewrite (sf_sorted _ _ _ _ _ facts), (sf_clicked _ _ _ _ _ facts).
  apply arraySort_Permutation.
Qed.

Lemma sortedClicked_sorted : StronglySorted (clicksLe cc) (sortedClicked s).
Proof.
  rewrite (sf_sorted _ _ _ _ _ facts), (sf_clicked _ _ _ _ _ facts).
  apply arraySort_sorted, Forall_forall.
  intros x [Hx _]%elem_of_tierWords.
  by apply clicked_reads in Hx as [? _].
Qed.

Lemma provisional_submseteq :
  provisional s ⊆+ tierWords su cc lcu Unseen allWords
                   ++ tierWords su cc lcu ClickedInLearning allWords.
Proof.
  rewrite (sf_provisional _ _ _ _ _ facts).
  rewrite <- sortedClicked_Permutation, <- bands_sorted.
  rewrite <- (sf_unseen _ _ _ _ _ facts).
  repeat apply submseteq_app; apply facts.
Qed.

Lemma elem_of_fallbackPool x :
  x ∈ fallbackPool (unseen s) (seenUnclicked s) (sortedClicked s)
        (provisional s) →
  (x ∉ provisional s)
  ∧ ∃ t, t ∈ [Unseen; SeenUnclicked; ClickedInLearning]
         ∧ x ∈ tierWords su cc lcu t allWords.
Proof.
  unfold fallbackPool.
  rewrite !elem_of_app, !list_elem_of_filter.
  rewrite (sf_unseen _ _ _ _ _ facts), (sf_seenUnclicked _ _ _ _ _ facts),
    sortedClicked_Permutation.
  intros [[? ?] | [[? ?] | [? ?]]]; (split; [done|]);
    [exists Unseen | exists SeenUnclicked | exists ClickedInLearning];
    (split; [|done]); rewrite !elem_of_cons; tauto.
Qed.

(** Every word of the batch was kept by one of the three selectable
    filters. *)
Lemma elem_of_batch x :
  x ∈ selectedWords s →
  ∃ t, t ∈ [Unseen; SeenUnclicked; ClickedInLearning]
       ∧ x ∈ tierWords su cc lcu t allWords.
Proof.
  destruct (sf_backfill _ _ _ _ _ facts) as (fill & -> & Hfill & _).
  rewrite elem_of_app. intros [Hx | Hx].
  - eapply elem_of_submseteq in Hx; [|apply provisional_submseteq].
    apply elem_of_app in Hx as [Hx | Hx];
      [exists Unseen | exists ClickedInLearning];
      (split; [|done]); rewrite !elem_of_cons; tauto.
  - eapply elem_of_submseteq in Hx; [|exact Hfill].
    by apply elem_of_fallbackPool in Hx as [_ ?].
Qed.

Lemma provisional_length : (length (provisional s) ≤ TARGET_BATCH_SIZE)%nat.
Proof.
  rewrite (sf_provisional _ _ _ _ _ facts), !length_app.
  rewrite (sf_batchNew_length _ _ _ _ _ facts),
    (sf_hardPick_length _ _ _ _ _ facts),
    (sf_mediumPick_length _ _ _ _ _ facts),
    (sf_easyPick_length _ _ _ _ _ facts).
  unfold TARGET_BATCH_SIZE, NEW_BATCH_SIZE, HARD_QUOTA, MEDIUM_QUOTA,
    EASY_QUOTA. lia.
Qed.

Lemma fallbackPool_NoDup :
  NoDup allWords →
  (∀ w, w ∈ allWords → noZeroUsageClicked su cc w) →
  NoDup (fallbackPool (unseen s) (seenUnclicked s) (sortedClicked s)
           (provisional s)).
Proof.
  intros Hnd Hz. unfold fallbackPool.
  assert (NoDup (sortedClicked s)) as Hsorted.
  { rewrite sortedClicked_Permutation. by apply NoDup_filter. }
  rewrite (sf_unseen _ _ _ _ _ facts), (sf_seenUnclicked _ _ _ _ _ facts).
  rewrite !NoDup_app. repeat split; try by repeat apply NoDup_filter.
  - intros x [_ Hu]%list_elem_of_filter.
    apply elem_of_tierWords in Hu as [Hu Hx]. cbn [inTier] in Hu.
    rewrite elem_of_app, !list_elem_of_filter, sortedClicked_Permutation.
    intros [[_ H] | [_ H]]; apply elem_of_tierWords in H as [H _];
      cbn [inTier] in H.
    + by eapply unseen_not_seenUnclicked.
    + eapply unseen_not_clicked; eauto.
  - intros x [_ Hu]%list_elem_of_filter.
    apply elem_of_tierWords in Hu as [Hu Hx]. cbn [inTier] in Hu.
    rewrite list_elem_of_filter, sortedClicked_Permutation.
    intros [_ H]. apply elem_of_tierWords in H as [H _]. cbn [inTier] in H.
    by eapply seenUnclicked_not_clicked.
Qed.

Lemma batch_NoDup :
  NoDup allWords →
  (∀ w, w ∈ allWords → noZeroUsageClicked su cc w) →
  NoDup (selectedWords s).
Proof.
  intros Hnd Hz.
  destruct (sf_backfill _ _ _ _ _ facts) as (fill & -> & Hfill & _).
  apply NoDup_app. split; [|split].
  - eapply submseteq_NoDup; [apply provisional_submseteq|].
    apply NoDup_app. repeat split; try by apply NoDup_filter.
    intros x [Hu Hx]%elem_of_tierWords [Hc _]%elem_of_tierWords.
    cbn [inTier] in *. eapply unseen_not_clicked; eauto.
  - intros x Hx Hin. eapply elem_of_submseteq in Hin; [|exact Hfill].
    by apply elem_of_fallbackPool in Hin as [? _].
  - eapply submseteq_NoDup; [exact Hfill|]. by apply fallbackPool_NoDup.
Qed.

Lemma batch_length :
  length (selectedWords s)
  = Nat.min TARGET_BATCH_SIZE
      (length (provisional s)
       + length (fallbackPool (unseen s) (seenUnclicked s) (sortedClicked s)
                   (provisional s))).
Proof.
  pose proof provisional_length.
  destruct (sf_backfill _ _ _ _ _ facts) as (fill & -> & _ & Hlen).
  rewrite length_app, Hlen. lia.
Qed.
End Batch.

(** ** Specification of the selector *)

(** C1, as amended.  Over stat maps with non-negative values, a word that is
    not the name of a member every object inherits and not a clicked word
    with a stored usage count of 0 is kept by exactly one of the five
    category filters: no such word of the universe falls in no tier, and
    none falls in two. *)
Theorem partition_completeness (su cc lcu : statMap) (allWords : list word)
    (w : word) :
  nonNegative su → nonNegative cc → noZeroUsageClicked su cc w →
  isPrototypeMember w = false →
  w ∈ allWords →
  ∃ t, tiersOf su cc lcu w = [t]
       ∧ ∀ t', w ∈ tierWords su cc lcu t' allWords ↔ t' = t.
Proof.
  intros Hsu Hcc Hz Hplain Hw.
  destruct (tier_exclusive su cc lcu w Hsu Hcc Hz Hplain) as [t Ht].
  exists t. split; [by apply tiersOf_spec|].
  intros t'. rewrite elem_of_tierWords, Ht. tauto.
Qed.

Lemma partition_completeness_witness :
  nonNegative exampleUsage ∧ nonNegative exampleClicks
  ∧ noZeroUsageClicked exampleUsage exampleClicks wC
  ∧ isPrototypeMember wC = false
  ∧ wC ∈ [wA; wB; wC]
  ∧ ∃ t, tiersOf exampleUsage exampleClicks exampleLastClick wC = [t]
         ∧ ∀ t', wC ∈ tierWords exampleUsage exampleClicks exampleLastClick
                        t' [wA; wB; wC] ↔ t' = t.
Proof.
  assert (nonNegative exampleUsage) as H1
    by (apply (bool_decide_unpack _); vm_compute; exact I).
  assert (nonNegative exampleClicks) as H2
    by (apply (bool_decide_unpack _); vm_compute; exact I).
  assert (noZeroUsageClicked exampleUsage exampleClicks wC) as H3
    by (apply (bool_decide_unpack _); vm_compute; exact I).
  assert (isPrototypeMember wC = false) as H4 by (vm_compute; reflexivity).
  assert (wC ∈ [wA; wB; wC]) as H5
    by (apply (bool_decide_unpack _); vm_compute; exact I).
  repeat (split; [assumption|]).
  exact (partition_completeness exampleUsage exampleClicks exampleLastClick
           [wA; wB; wC] wC H1 H2 H3 H4 H5).
Defined.

(** C1 as stated fails: with the stored usage count 0 and one click, the
    word is kept by the Unseen filter and by the ClickedInLearning filter. *)
Lemma partition_overlap :
  nonNegative {[wA := 0]} ∧ nonNegative {[wA := 1]} ∧ nonNegative ∅
  ∧ tiersOf {[wA := 0]} {[wA := 1]} ∅ wA = [Unseen; ClickedInLearning]
  ∧ wA ∈ tierWords {[wA := 0]} {[wA := 1]} ∅ Unseen [wA]
  ∧ wA ∈ tierWords {[wA := 0]} {[wA := 1]} ∅ ClickedInLearning [wA].
Proof.
  split; [apply (bool_decide_unpack _); vm_compute; exact I|].
  split; [apply (bool_decide_unpack _); vm_compute; exact I|].
  split; [apply (bool_decide_unpack _); vm_compute; exact I|].
  split; [vm_compute; reflexivity|].
  split; apply (bool_decide_unpack _); vm_compute; exact I.
Qed.

(** C2, as amended.  For a duplicate-free universe in which no clicked word
    has a stored usage count of 0, every word appears at most once in the
    returned batch: the new-word pick, the three band picks and the backfill
    pick are pairwise disjoint. *)
Theorem no_duplicates (g : rng) (allWords : list word) (su cc lcu : statMap) :
  NoDup allWords →
  (∀ w, w ∈ allWords → noZeroUsageClicked su cc w) →
  NoDup (selectSpacedRepetitionWords g allWords su cc lcu).1.1.
Proof.
  intros Hnd Hz. rewrite selectSpacedRepetitionWords_batch.
  eapply batch_NoDup; [apply selectSteps_facts|done|done].
Qed.

Lemma no_duplicates_witness :
  NoDup [wA; wB; wC]
  ∧ (∀ w, w ∈ [wA; wB; wC] → noZeroUsageClicked exampleUsage exampleClicks w)
  ∧ NoDup (selectSpacedRepetitionWords exampleRng [wA; wB; wC] exampleUsage
             exampleClicks exampleLastClick).1.1.
Proof.
  assert (NoDup [wA; wB; wC]) as H1
    by (apply (bool_decide_unpack _); vm_compute; exact I).
  assert (∀ w, w ∈ [wA; wB; wC] →
               noZeroUsageClicked exampleUsage exampleClicks w) as H2
    by (apply Forall_forall, (bool_decide_unpack _); vm_compute; exact I).
  split; [exact H1|]. split; [exact H2|].
  exact (no_duplicates exampleRng [wA; wB; wC] exampleUsage exampleClicks
           exampleLastClick H1 H2).
Defined.

(** C2 as stated fails: a clicked word whose stored usage count is 0 is
    drawn as a new word and again as a review word. *)
Lemma duplicate_on_zero_usage :
  NoDup [wA]
  ∧ (selectSpacedRepetitionWords exampleRng [wA] {[wA := 0]} {[wA := 1]} ∅).1.1
    = [wA; wA]
  ∧ ¬ NoDup (selectSpacedRepetitionWords exampleRng [wA] {[wA := 0]}
               {[wA := 1]} ∅).1.1.
Proof.
  split; [apply (bool_decide_unpack _); vm_compute; exact I|].
  assert ((selectSpacedRepetitionWords exampleRng [wA] {[wA := 0]}
             {[wA := 1]} ∅).1.1 = [wA; wA]) as E by (vm_compute; reflexivity).
  split; [exact E|]. rewrite E.
  intros Hnd. apply NoDup_cons in Hnd as [Hin _].
  apply Hin. apply elem_of_cons. by left.
Qed.

(** C3.  Whatever the universe and the draws, and for last-click counts that
    are non-negative, no word of the returned batch is mastered by
    repetition (usage at least MASTER_THRESHOLD and no click) or mastered by
    review (clicked, and usage minus last-click usage at least
    REVIEW_THRESHOLD), absent entries counting as 0; the two mastered
    filters reject it. *)
Theorem no_mastered_inclusion (g : rng) (allWords : list word)
    (su cc lcu : statMap) (w : word) :
  nonNegative lcu →
  w ∈ (selectSpacedRepetitionWords g allWords su cc lcu).1.1 →
  ¬ (MASTER_THRESHOLD ≤ orZero (su !! w) ∧ orZero (cc !! w) = 0)
  ∧ ¬ (0 < orZero (cc !! w)
       ∧ REVIEW_THRESHOLD ≤ orZero (su !! w) - orZero (lcu !! w))
  ∧ (w ∉ tierWords su cc lcu MasteredByRepetition allWords)
  ∧ (w ∉ tierWords su cc lcu MasteredByReview allWords).
Proof.
  intros Hl. rewrite selectSpacedRepetitionWords_batch. intros Hsel.
  eapply elem_of_batch in Hsel as (t & Ht & Hw); [|apply selectSteps_facts].
  apply elem_of_tierWords in Hw as [Hin Hw].
  destruct (selectable_not_mastered su cc lcu w t Hl Ht Hin) as [Hrep Hrev].
  assert (0 ≤ orZero (lcu !! w)) as Hlw.
  { destruct (lcu !! w) as [v|] eqn:E; cbn; [by eapply Hl|done]. }
  rewrite !elem_of_tierWords. cbn [inTier]. rewrite Hrep, Hrev.
  clear Hrep Hrev Hw.
  rewrite !elem_of_cons, elem_of_nil in Ht.
  split; [|split; [|split; intros [? _]; discriminate]].
  - destruct Ht as [-> | [-> | [-> | []]]]; cbn [inTier] in Hin;
      reads; lia.
  - destruct Ht as [-> | [-> | [-> | []]]]; cbn [inTier] in Hin;
      reads; lia.
Qed.

Lemma no_mastered_inclusion_witness :
  nonNegative exampleLastClick
  ∧ wC ∈ (selectSpacedRepetitionWords exampleRng [wA; wB; wC] exampleUsage
            exampleClicks exampleLastClick).1.1
  ∧ ¬ (MASTER_THRESHOLD ≤ orZero (exampleUsage !! wC)
       ∧ orZero (exampleClicks !! wC) = 0)
  ∧ ¬ (0 < orZero (exampleClicks !! wC)
       ∧ REVIEW_THRESHOLD
         ≤ orZero (exampleUsage !! wC) - orZero (exampleLastClick !! wC))
  ∧ (wC ∉ tierWords exampleUsage exampleClicks exampleLastClick
            MasteredByRepetition [wA; wB; wC])
  ∧ (wC ∉ tierWords exampleUsage exampleClicks exampleLastClick
            MasteredByReview [wA; wB; wC]).
Proof.
  assert (nonNegative exampleLastClick) as H1
    by (apply (bool_decide_unpack _); vm_compute; exact I).
  assert (wC ∈ (selectSpacedRepetitionWords exampleRng [wA; wB; wC]
                  exampleUsage exampleClicks exampleLastClick).1.1) as H2
    by (apply (bool_decide_unpack _); vm_compute; exact I).
  split; [exact H1|]. split; [exact H2|].
  exact (no_mastered_inclusion exampleRng [wA; wB; wC] exampleUsage
           exampleClicks exampleLastClick wC H1 H2).
Defined.



(** C5.  The review stage sorts the ClickedInLearning words in ascending
    order of their click counts, cuts the sorted sequence by position into a
    Hard and a Medium band of ceil(n/3) words each (as far as words remain)
    and an Easy band with the rest, and draws without replacement at most 20
    words from Hard, 20 from Medium and 10 from Easy; the new-word pick holds
    at most NEW_BATCH_SIZE (50) words, all drawn without replacement from the
    Unseen tier. *)
Theorem review_stage_quotas (g : rng) (allWords : list word)
    (su cc lcu : statMap) :
  let s := (selectSteps g allWords su cc lcu).1 in
  let n := length (sortedClicked s) in
  (* the sort *)
  sortedClicked s ≡ₚ tierWords su cc lcu ClickedInLearning allWords
  ∧ StronglySorted (clicksLe cc) (sortedClicked s)
  (* the bands *)
  ∧ (n ≤ 3 * third s ∧ 3 * third s < n + 3)%nat
  ∧ hard s = take (third s) (sortedClicked s)
  ∧ medium s = take (third s) (drop (third s) (sortedClicked s))
  ∧ easy s = drop (third s + third s) (sortedClicked s)
  ∧ length (hard s) = Nat.min (third s) n
  ∧ length (medium s) = Nat.min (third s) (n - third s)
  ∧ hard s ++ medium s ++ easy s = sortedClicked s
  (* the picks *)
  ∧ (hardPick s ⊆+ hard s ∧ length (hardPick s) ≤ HARD_QUOTA)%nat
  ∧ (mediumPick s ⊆+ medium s ∧ length (mediumPick s) ≤ MEDIUM_QUOTA)%nat
  ∧ (easyPick s ⊆+ easy s ∧ length (easyPick s) ≤ EASY_QUOTA)%nat
  ∧ (batchNew s ⊆+ tierWords su cc lcu Unseen allWords
     ∧ length (batchNew s) ≤ NEW_BATCH_SIZE)%nat
  (* the batch starts with them *)
  ∧ batchNew s ++ hardPick s ++ mediumPick s ++ easyPick s
    `prefix_of` (selectSpacedRepetitionWords g allWords su cc lcu).1.1.
Proof.
  intros s n.
  pose proof (selectSteps_facts g allWords su cc lcu : selectionFacts _ _ _ _ s)
    as facts.
  pose proof (sf_hard _ _ _ _ _ facts) as Hhard.
  pose proof (sf_medium _ _ _ _ _ facts) as Hmedium.
  unfold slice in Hhard, Hmedium.
  rewrite drop_0, Nat.sub_0_r in Hhard.
  replace (2 * third s - third s)%nat with (third s) in Hmedium by lia.
  split; [by eapply sortedClicked_Permutation|].
  split; [by eapply sortedClicked_sorted|].
  split; [rewrite (sf_third _ _ _ _ _ facts); apply ceilThird_spec|].
  split; [exact Hhard|]. split; [exact Hmedium|].
  split.
  { rewrite (sf_easy _ _ _ _ _ facts). f_equal. lia. }
  split; [rewrite Hhard; apply length_take|].
  split; [rewrite Hmedium, length_take, length_drop; done|].
  split; [by eapply bands_sorted|].
  split; [split; [apply facts|rewrite (sf_hardPick_length _ _ _ _ _ facts); lia]|].
  split;
    [split; [apply facts|rewrite (sf_mediumPick_length _ _ _ _ _ facts); lia]|].
  split; [split; [apply facts|rewrite (sf_easyPick_length _ _ _ _ _ facts); lia]|].
  split.
  { split; [rewrite <- (sf_unseen _ _ _ _ _ facts); apply facts|].
    rewrite (sf_batchNew_length _ _ _ _ _ facts). lia. }
  rewrite selectSpacedRepetitionWords_batch. fold s.
  destruct (sf_backfill _ _ _ _ _ facts) as (fill & -> & _).
  rewrite <- (sf_provisional _ _ _ _ _ facts). by exists fill.
Qed.

(** C9.  Every word of the returned batch is an element of the universe the
    selector was given. *)
Theorem batch_within_universe (g : rng) (allWords : list word)
    (su cc lcu : statMap) (w : word) :
  w ∈ (selectSpacedRepetitionWords g allWords su cc lcu).1.1 → w ∈ allWords.
Proof.
  rewrite selectSpacedRepetitionWords_batch. intros Hsel.
  eapply elem_of_batch in Hsel as (t & _ & Hw); [|apply selectSteps_facts].
  by apply elem_of_tierWords in Hw as [_ ?].
Qed.

Lemma batch_within_universe_witness :
  wC ∈ (selectSpacedRepetitionWords exampleRng [wA; wB; wC] exampleUsage
          exampleClicks exampleLastClick).1.1
  ∧ wC ∈ [wA; wB; wC].
Proof.
  assert (wC ∈ (selectSpacedRepetitionWords exampleRng [wA; wB; wC]
                  exampleUsage exampleClicks exampleLastClick).1.1) as H
    by (apply (bool_decide_unpack _); vm_compute; exact I).
  split; [exact H|].
  exact (batch_within_universe exampleRng [wA; wB; wC] exampleUsage
           exampleClicks exampleLastClick wC H).
Defined.

(** ** Code points, white space and sanitizeWord *)

(** Induction along [codePoints]: a surrogate pair, or one code unit that
    does not start a pair. *)
Lemma codePoints_ind (P : jsstring → Prop) :
  P [] →
  (∀ u v t, isLeadSurrogate u && isTrailSurrogate v = true →
            codePoints (u :: v :: t) = (surrogatePair u v, [u; v]) :: codePoints t →
            P t → P (u :: v :: t)) →
  (∀ u t, codePoints (u :: t) = (u, [u]) :: codePoints t →
          (∀ v t', t = v :: t' → isLeadSurrogate u && isTrailSurrogate v = false) →
          P t → P (u :: t)) →
  ∀ s, P s.
Proof.
  intros Hnil Hpair Hone s.
  remember (length s) as n eqn:Hn. revert s Hn.
  induction n as [n IH] using lt_wf_ind. intros s Hn.
  destruct s as [|u [|v t]]; [done| |].
  - apply Hone; [done|intros ?? [=]|done].
  - destruct (isLeadSurrogate u && isTrailSurrogate v) eqn:E.
    + apply Hpair; [done|by cbn; rewrite E|].
      apply (IH (length t)); [cbn in Hn; lia|done].
    + apply Hone; [by cbn; rewrite E|by intros ?? [= <- <-]|].
      apply (IH (length (v :: t))); [cbn in *; lia|done].
Qed.

Lemma codePoints_units s : concat (map snd (codePoints s)) = s.
Proof.
  induction s as [|u v t _ E IH|u t E _ IH] using codePoints_ind; [done| |].
  - rewrite E. cbn. by rewrite IH.
  - rewrite E. cbn. by rewrite IH.
Qed.

Lemma codePoints_cons_single u t :
  isLeadSurrogate u = false → codePoints (u :: t) = (u, [u]) :: codePoints t.
Proof. intros E. destruct t; cbn; [done|]. by rewrite E. Qed.

Lemma codePoints_cons_pair u v t :
  isLeadSurrogate u = true → isTrailSurrogate v = true →
  codePoints (u :: v :: t) = (surrogatePair u v, [u; v]) :: codePoints t.
Proof. intros E1 E2. cbn. by rewrite E1, E2. Qed.

Lemma codePoints_snoc s w :
  isTrailSurrogate w = false → codePoints (s ++ [w]) = codePoints s ++ [(w, [w])].
Proof.
  intros Hw.
  induction s as [|u v t Huv _ IH|u t E Hu IH] using codePoints_ind; [done| |].
  - apply andb_true_iff in Huv as [Hu Hv].
    change ((u :: v :: t) ++ [w]) with (u :: v :: (t ++ [w])).
    by rewrite !codePoints_cons_pair, IH.
  - rewrite E. cbn [app]. rewrite <- IH.
    destruct t as [|v t']; cbn [app].
    + cbn. by rewrite Hw, andb_false_r.
    + cbn. by rewrite (Hu v t' eq_refl).
Qed.

Lemma lead_is_surrogate u : isLeadSurrogate u = true → isSurrogate u = true.
Proof. unfold isLeadSurrogate, isSurrogate. nlia. Qed.

Lemma trail_is_surrogate u : isTrailSurrogate u = true → isSurrogate u = true.
Proof. unfold isTrailSurrogate, isSurrogate. nlia. Qed.

Lemma surrogatePair_not_surrogate u v : isSurrogate (surrogatePair u v) = false.
Proof. unfold isSurrogate, surrogatePair. nlia. Qed.

Lemma whiteSpace_not_surrogate u : isWhiteSpace u = true → isSurrogate u = false.
Proof. unfold isWhiteSpace, isSurrogate. nlia. Qed.

Lemma codePoints_items s : Forall spelled (codePoints s).
Proof.
  induction s as [|u v t Huv E IH|u t E _ IH] using codePoints_ind;
    [constructor| |]; rewrite E; constructor; try done.
  - apply andb_true_iff in Huv as [Hu Hv]. right. by exists u, v.
  - by left.
Qed.

Lemma codePoints_concat items rest :
  Forall (λ p, spelled p ∧ isSurrogate p.1 = false) items →
  codePoints (concat (map snd items) ++ rest) = items ++ codePoints rest.
Proof.
  induction 1 as [|[c us] items [Hsp Hc] _ IH]; [done|].
  cbn [map concat snd fst] in *. rewrite <- app_assoc.
  destruct Hsp as [Hus | (u & v & Hu & Hv & [= -> ->])]; cbn [snd fst] in *.
  - subst us. cbn [app]. rewrite codePoints_cons_single, IH; [done|].
    destruct (isLeadSurrogate c) eqn:E; [|done].
    apply lead_is_surrogate in E. congruence.
  - cbn [app]. by rewrite codePoints_cons_pair, IH.
Qed.

(** *** dropWhile and trim *)

Lemma dropWhile_prefix {A} (p : A → bool) l :
  ∃ pre, l = pre ++ dropWhile p l ∧ Forall (λ x, p x = true) pre.
Proof.
  induction l as [|x l (pre & E & Hpre)]; [by exists []|]. cbn.
  destruct (p x) eqn:Hx; [|by exists []].
  exists (x :: pre). split; [by rewrite E at 1|by constructor].
Qed.

Lemma dropWhile_head {A} (p : A → bool) l x :
  head (dropWhile p l) = Some x → p x = false.
Proof.
  induction l as [|y l IH]; cbn; [done|].
  destruct (p y) eqn:Hy; [done|]. cbn. congruence.
Qed.

Lemma dropWhile_fixed {A} (p : A → bool) l :
  (∀ x, head l = Some x → p x = false) → dropWhile p l = l.
Proof. destruct l as [|y l]; cbn; [done|]. intros H. by rewrite (H y). Qed.

(** What [trim] returns neither starts nor ends with white space, and
    [trim] leaves such a string alone. *)
Lemma trim_ends s u :
  head (trim s) = Some u ∨ last (trim s) = Some u → isWhiteSpace u = false.
Proof.
  unfold trim. rewrite head_reverse, last_reverse.
  set (a := dropWhile isWhiteSpace s).
  intros [Hl | Hh]; [|by eapply dropWhile_head].
  destruct (dropWhile_prefix isWhiteSpace (reverse a)) as (pre & E & _).
  destruct (dropWhile isWhiteSpace (reverse a)) as [|b0 b] eqn:Hb; [done|].
  assert (last (reverse a) = Some u) as Hu.
  { rewrite E, last_app. by rewrite Hl. }
  rewrite last_reverse in Hu. by eapply dropWhile_head.
Qed.

Lemma trim_fixed s :
  (∀ u, head s = Some u ∨ last s = Some u → isWhiteSpace u = false) →
  trim s = s.
Proof.
  intros H. unfold trim.
  rewrite (dropWhile_fixed _ s) by (intros; apply H; by left).
  rewrite dropWhile_fixed, reverse_involutive; [done|].
  intros u. rewrite head_reverse. intros; apply H; by right.
Qed.

Lemma trim_idempotent s : trim (trim s) = trim s.
Proof. apply trim_fixed, trim_ends. Qed.

(** [trim] cuts white space off both ends. *)
Lemma trim_cut s :
  ∃ pre post, s = pre ++ trim s ++ post
    ∧ Forall (λ u, isWhiteSpace u = true) pre
    ∧ Forall (λ u, isWhiteSpace u = true) post.
Proof.
  unfold trim.
  destruct (dropWhile_prefix isWhiteSpace s) as (pre & E1 & Hpre).
  set (a := dropWhile isWhiteSpace s) in *.
  destruct (dropWhile_prefix isWhiteSpace (reverse a)) as (post & E2 & Hpost).
  exists pre, (reverse post). split; [|split; [done|by apply Forall_reverse]].
  rewrite <- reverse_app, <- E2, reverse_involutive. exact E1.
Qed.

Lemma elem_of_trim s u : u ∈ trim s → u ∈ s.
Proof.
  destruct (trim_cut s) as (pre & post & E & _). intros Hu.
  rewrite E, !elem_of_app. tauto.
Qed.

Section SanitizeProperties.
Variable nonAsciiPS : N → bool.

Lemma stripPunctSymbols_fixed s :
  Forall (λ p, isPunctOrSymbol nonAsciiPS p.1 = false) (codePoints s) →
  stripPunctSymbols nonAsciiPS s = s.
Proof.
  intros H. unfold stripPunctSymbols.
  rewrite <- (codePoints_units s) at 2. f_equal. f_equal.
  induction H as [|p l Hp _ IH]; [done|].
  rewrite filter_cons_True, IH; [done|]. by rewrite Hp.
Qed.

Lemma codePoints_strip s :
  wellFormed s →
  codePoints (stripPunctSymbols nonAsciiPS s)
  = filter (λ p, negb (isPunctOrSymbol nonAsciiPS p.1)) (codePoints s).
Proof.
  intros Hwf. unfold stripPunctSymbols.
  rewrite <- (app_nil_r (concat _)), codePoints_concat;
    [by rewrite app_nil_r|].
  apply Forall_forall. intros p [_ Hp]%list_elem_of_filter. split.
  - by eapply Forall_forall in Hp; [|apply codePoints_items].
  - by eapply Forall_forall in Hp; [|exact Hwf].
Qed.

Lemma strip_clean s : wellFormed s → clean nonAsciiPS (stripPunctSymbols nonAsciiPS s).
Proof.
  intros Hwf. unfold clean. rewrite codePoints_strip by done.
  apply Forall_forall. intros p [Hk Hp]%list_elem_of_filter. split.
  - by eapply Forall_forall in Hp; [|exact Hwf].
  - by apply negb_prop_elim, Is_true_false in Hk.
Qed.

Lemma clean_trim s : clean nonAsciiPS s → clean nonAsciiPS (trim s).
Proof.
  unfold clean.
  destruct (trim_cut s) as (pre & post & E & Hpre & Hpost).
  rewrite E at 1. clear E. generalize (trim s). intros t.
  induction Hpre as [|w pre Hw _ IH]; cbn [app].
  - induction post as [|w post IH] using rev_ind.
    + by rewrite app_nil_r.
    + apply Forall_app in Hpost as [Hpost Hw%Forall_inv].
      rewrite app_assoc, codePoints_snoc, Forall_app; [intros [? _]; auto|].
      apply whiteSpace_not_surrogate in Hw.
      destruct (isTrailSurrogate w) eqn:E; [|done].
      apply trail_is_surrogate in E. congruence.
  - rewrite codePoints_cons_single, Forall_cons; [tauto|].
    apply whiteSpace_not_surrogate in Hw.
    destruct (isLeadSurrogate w) eqn:E; [|done].
    apply lead_is_surrogate in E. congruence.
Qed.

(** A code unit that survives is a surrogate or is not punctuation or a
    symbol. *)
Lemma sanitizeWord_units s u :
  u ∈ sanitizeWord nonAsciiPS s →
  isSurrogate u = true ∨ isPunctOrSymbol nonAsciiPS u = false.
Proof.
  intros Hu%elem_of_trim. unfold stripPunctSymbols in Hu.
  apply list_elem_of_In, in_concat in Hu as (us & Hus & Hu).
  apply in_map_iff in Hus as (p & <- & Hp).
  apply list_elem_of_In, list_elem_of_filter in Hp as [Hk Hp].
  apply negb_prop_elim, Is_true_false in Hk.
  eapply Forall_forall in Hp; [|apply codePoints_items].
  destruct Hp as [Hone | (a & b & Ha & Hb & ->)].
  - rewrite Hone in Hu. destruct Hu as [<- | []]. by right.
  - left. cbn in Hu.
    destruct Hu as [<- | [<- | []]];
      [by apply lead_is_surrogate|by apply trail_is_surrogate].
Qed.

(** In particular no dot and no reserved path character survives. *)
Lemma sanitizeWord_path_safe s :
  Forall (λ u, u ≠ 0x2E%N ∧ isReservedPathChar u = false)
         (sanitizeWord nonAsciiPS s).
Proof.
  apply Forall_forall. intros u Hu.
  apply sanitizeWord_units in Hu.
  unfold isSurrogate, isPunctOrSymbol, isReservedPathChar in *.
  destruct (u <? 0x80)%N eqn:E;
    [unfold asciiPunctOrSymbol, isSurrogate in Hu; nlia|].
  clear Hu. nlia.
Qed.

(** Nor does an underscore, so that a sanitized word is never a reserved
    field name. *)
Lemma sanitizeWord_not_reserved s :
  isReservedFieldName (sanitizeWord nonAsciiPS s) = false.
Proof.
  destruct (sanitizeWord nonAsciiPS s) as [|a [|b rest]] eqn:E; [done..|].
  assert (a ∈ sanitizeWord nonAsciiPS s) as Ha by (rewrite E; left).
  apply sanitizeWord_units in Ha.
  unfold isReservedFieldName.
  destruct (reverse rest) as [|y [|z middle]]; [done..|].
  destruct (a =? 0x5F)%N eqn:Ea; [|done].
  apply N.eqb_eq in Ea as ->. by destruct Ha.
Qed.
End SanitizeProperties.

(** ** Field paths of sanitized words *)

Lemma splitDots_no_dot (s : jsstring) :
  Forall (λ u, u ≠ 0x2E%N) s → splitDots s = [s].
Proof.
  induction 1 as [|u s Hu _ IH]; [done|]. cbn.
  apply N.eqb_neq in Hu. by rewrite Hu, IH.
Qed.

Lemma splitDots_prefix (m s : jsstring) :
  Forall (λ u, u ≠ 0x2E%N) m →
  splitDots (m ++ 0x2E%N :: s) = m :: splitDots s.
Proof.
  induction 1 as [|u m Hu _ IH]; [done|]. cbn.
  apply N.eqb_neq in Hu. by rewrite Hu, IH.
Qed.

(** The key [<m>.<k>] is read as the path [m; k] when neither part is
    empty, is reserved, or holds a dot or a reserved character. *)
Lemma fieldPathOf_entry (m k : jsstring) :
  m ≠ [] → k ≠ [] →
  Forall (λ u, u ≠ 0x2E%N ∧ isReservedPathChar u = false) m →
  Forall (λ u, u ≠ 0x2E%N ∧ isReservedPathChar u = false) k →
  isReservedFieldName m = false → isReservedFieldName k = false →
  fieldPathOf (m ++ 0x2E%N :: k) = Some [m; k].
Proof.
  intros Hm Hk Sm Sk Rm Rk. unfold fieldPathOf.
  assert (existsb isReservedPathChar (m ++ 0x2E%N :: k) = false) as ->.
  { rewrite existsb_app. cbn [existsb].
    apply orb_false_iff. split; [|apply orb_false_iff; split; [done|]].
    - clear Hm Rm. induction Sm as [|u m [_ Hu] _ IH]; [done|]. cbn.
      by rewrite Hu, IH.
    - clear Hk Rk. induction Sk as [|u k [_ Hu] _ IH]; [done|]. cbn.
      by rewrite Hu, IH. }
  rewrite splitDots_prefix, splitDots_no_dot;
    [|eapply Forall_impl; [exact Sk|by intros ? [? _]]
     |eapply Forall_impl; [exact Sm|by intros ? [? _]]].
  cbn [existsb]. rewrite Rm, Rk.
  by destruct m, k.
Qed.

Lemma writeEntry_clickCount d k v :
  writeEntry d [str "clickCount"; k] v
  = Some (StatsDoc (storyUsage d)
            (<[k := fieldResult v (clickCount d !! k)]> (clickCount d))
            (lastClickUsage d)).
Proof.
  unfold writeEntry.
  rewrite decide_False by (vm_compute; discriminate).
  by rewrite decide_True.
Qed.

Lemma writeEntry_lastClickUsage d k v :
  writeEntry d [str "lastClickUsage"; k] v
  = Some (StatsDoc (storyUsage d) (clickCount d)
            (<[k := fieldResult v (lastClickUsage d !! k)]> (lastClickUsage d))).
Proof.
  unfold writeEntry.
  rewrite !decide_False by (vm_compute; discriminate).
  by rewrite decide_True.
Qed.

Section ClickProperties.
Variable nonAsciiPS : N → bool.
Variable nestedUpdate :
  statsDoc → list (list jsstring * fieldValue) → writeResult.

Lemma updateDoc_two p1 v1 p2 v2 q1 q2 (doc : option statsDoc) :
  fieldPathOf p1 = Some q1 → fieldPathOf p2 = Some q2 →
  updateDoc nestedUpdate doc [(p1, v1); (p2, v2)]
  = match doc with
    | None => Failed NotFound
    | Some d =>
      match writeEntries d [(q1, v1); (q2, v2)] with
      | Some d' => Written d'
      | None => nestedUpdate d [(q1, v1); (q2, v2)]
      end
    end.
Proof. intros E1 E2. unfold updateDoc. cbn. rewrite E1. cbn. by rewrite E2. Qed.

(** The update of a click on a sanitized word writes the two entries of
    that word. *)
Lemma updateDoc_click raw v (doc : option statsDoc) :
  let word := sanitizeWord nonAsciiPS raw in
  word ≠ [] →
  updateDoc nestedUpdate doc
    [(str "clickCount." ++ word, Increment 1);
     (str "lastClickUsage." ++ word, Num v)]
  = match doc with
    | Some d =>
      Written (StatsDoc (storyUsage d)
                 (<[word := orZero (clickCount d !! word) + 1]> (clickCount d))
                 (<[word := v]> (lastClickUsage d)))
    | None => Failed NotFound
    end.
Proof.
  intros word Hne.
  pose proof (sanitizeWord_path_safe nonAsciiPS raw) as Hsafe.
  fold word in Hsafe.
  rewrite (updateDoc_two _ _ _ _ [str "clickCount"; word]
             [str "lastClickUsage"; word]).
  - destruct doc as [d|]; [|done]. cbn [writeEntries].
    rewrite writeEntry_clickCount, writeEntry_lastClickUsage. done.
  - apply (fieldPathOf_entry (str "clickCount") word); try done.
    + apply (bool_decide_unpack _). vm_compute. exact I.
    + apply sanitizeWord_not_reserved.
  - apply (fieldPathOf_entry (str "lastClickUsage") word); try done.
    + apply (bool_decide_unpack _). vm_compute. exact I.
    + apply sanitizeWord_not_reserved.
Qed.

(** The world after a click that is not discarded, when the usage count of
    the word reads as a number. *)
Lemma handleWordClick_result (raw : jsstring) (w : world) :
  let word := sanitizeWord nonAsciiPS raw in
  word ≠ [] →
  plainRead (from_option storyUsage ∅ (wordStats (db w))) word →
  handleWordClick nonAsciiPS nestedUpdate raw w
  = match wordStats (db w) with
    | Some d =>
      (World (Firestore (wordBank (db w))
                (Some (StatsDoc (storyUsage d)
                         (<[word := orZero (clickCount d !! word) + 1]>
                            (clickCount d))
                         (<[word := orZero (storyUsage d !! word)]>
                            (lastClickUsage d)))))
             (random w),
       [GetDoc WordStatsRef; ConsoleLogClicked word])
    | None =>
      (World (Firestore (wordBank (db w))
                (Some (StatsDoc ∅ {[word := 1]} {[word := 0]})))
             (random w),
       [GetDoc WordStatsRef; ConsoleLogCreated word])
    end.
Proof.
  intros word Hne Hread. unfold handleWordClick. fold word.
  destruct word as [|u word'] eqn:Eword; [done|]. cbn [isEmptyString].
  rewrite <- Eword in *. subst word.
  rewrite (orZeroOf_plain _ _ Hread).
  rewrite (updateDoc_click raw) by done.
  destruct (wordStats (db w)) as [d|]; cbn [from_option]; [done|].
  by rewrite lookup_empty.
Qed.

(** The world after a click on a word whose usage count reads as an
    inherited member: the update is refused and nothing is written. *)
Lemma handleWordClick_refused (raw : jsstring) (w : world) :
  let word := sanitizeWord nonAsciiPS raw in
  word ≠ [] →
  getProp (from_option storyUsage ∅ (wordStats (db w))) word = PMember →
  handleWordClick nonAsciiPS nestedUpdate raw w
  = (w, [GetDoc WordStatsRef; ConsoleError InvalidArgument]).
Proof.
  intros word Hne Hread. unfold handleWordClick. fold word.
  destruct word as [|u word'] eqn:Eword; [done|]. cbn [isEmptyString].
  by rewrite Hread.
Qed.
End ClickProperties.

(** ** Specification of the handlers *)

Section HandlerClaims.
Variable nonAsciiPS : N → bool.
Variable nestedUpdate :
  statsDoc → list (list jsstring * fieldValue) → writeResult.
Variable normalizeNFKC : jsstring → jsstring.
Variable generateStory : list word → jsstring.

(** C6.  When the loaded universe has fewer than NEW_BATCH_SIZE + MIX_SIZE
    (100) words, the batch-generation handler alerts that it needs at
    least 100 words and returns: the selector is not called (its line is
    not printed and no draw is consumed) and the store is left as it was.
    With at least 100 words that alert is not raised and the selector
    runs. *)
Theorem insufficient_corpus (w : world) (words : list jsval) :
  wordBank (db w) = Some words →
  let allWords := loadWords normalizeNFKC words in
  let r := fetchWords nestedUpdate normalizeNFKC generateStory w in
  ((length allWords < NEW_BATCH_SIZE + MIX_SIZE)%nat →
   r = (w, [GetDoc WordBankRef; GetDoc WordStatsRef;
            Alert (NeedAtLeast 100 (length allWords))]))
  ∧ ((NEW_BATCH_SIZE + MIX_SIZE ≤ length allWords)%nat →
     (∀ need have, Alert (NeedAtLeast need have) ∉ r.2)
     ∧ ∃ counts, ConsoleLogCounts counts ∈ r.2).
Proof.
  intros Hbank allWords r. subst r. unfold fetchWords. rewrite Hbank.
  fold allWords. split; intros Hlen.
  - by rewrite bool_decide_eq_true_2.
  - rewrite bool_decide_eq_false_2 by lia.
    destruct (selectSpacedRepetitionWords _ _ _ _ _) as [[selected g] counts].
    set (written := match wordStats (db w) with
                    | Some _ => _
                    | None => _
                    end).
    destruct written as [d|e]; cbn [snd]; split.
    + intros need have. rewrite !elem_of_app, !elem_of_cons, elem_of_nil.
      intros [[?|[?|[?|[]]]] | [?|[?|[]]]]; discriminate.
    + exists counts. rewrite !elem_of_app, !elem_of_cons. tauto.
    + intros need have. rewrite !elem_of_app, !elem_of_cons, elem_of_nil.
      intros [[?|[?|[?|[]]]] | [?|[?|[]]]]; discriminate.
    + exists counts. rewrite !elem_of_app, !elem_of_cons. tauto.
Qed.

(** C7.  The click recorder is to add 1 to the click count of every word
    whose sanitized form is not empty and to set its last-click usage to
    its usage count, creating the statistics record when there is none.
    For the token [constructor] it does neither: the usage map stores no
    such word, the read finds the member every object inherits under that
    name, the update is refused as an invalid argument, and the store stays
    as it was, with or without a statistics record. *)
Theorem click_on_inherited_member_is_lost :
  sanitizeWord nonAsciiPS (str "constructor") = str "constructor"
  ∧ handleWordClick nonAsciiPS nestedUpdate (str "constructor") smallWorld
    = (smallWorld, [GetDoc WordStatsRef; ConsoleError InvalidArgument])
  ∧ clickCount exampleStats !! str "constructor" = None
  ∧ handleWordClick nonAsciiPS nestedUpdate (str "constructor") freshWorld
    = (freshWorld, [GetDoc WordStatsRef; ConsoleError InvalidArgument])
  ∧ wordStats (db freshWorld) = None.
Proof.
  assert (sanitizeWord nonAsciiPS (str "constructor") = str "constructor")
    as E by (vm_compute; reflexivity).
  split; [exact E|].
  split; [|split; [vm_compute; reflexivity|split; [|reflexivity]]].
  - apply handleWordClick_refused; [rewrite E; vm_compute; discriminate|].
    rewrite E. vm_compute. reflexivity.
  - apply handleWordClick_refused; [rewrite E; vm_compute; discriminate|].
    rewrite E. vm_compute. reflexivity.
Qed.

(** C8.  The click recorder keeps the code units of the code points of the
    raw token that are neither punctuation nor symbols, in their order, and
    trims the result: what is left has no white space at either end and no
    code unit that is punctuation or a symbol, and when the token has no
    unpaired surrogate none of its code points is punctuation or a symbol.
    When nothing is left the click does nothing: the store is neither read
    nor written and nothing is reported. *)
Theorem empty_token_is_noop (raw : jsstring) (w : world) :
  sanitizeWord nonAsciiPS raw
  = trim (concat (map snd
      (filter (λ p, negb (isPunctOrSymbol nonAsciiPS p.1))
              (codePoints raw))))
  ∧ (∀ u, u ∈ sanitizeWord nonAsciiPS raw →
          isSurrogate u = true ∨ isPunctOrSymbol nonAsciiPS u = false)
  ∧ (∀ u, head (sanitizeWord nonAsciiPS raw) = Some u
          ∨ last (sanitizeWord nonAsciiPS raw) = Some u →
          isWhiteSpace u = false)
  ∧ (wellFormed raw →
     Forall (λ p, isPunctOrSymbol nonAsciiPS p.1 = false)
            (codePoints (sanitizeWord nonAsciiPS raw)))
  ∧ (sanitizeWord nonAsciiPS raw = [] →
     handleWordClick nonAsciiPS nestedUpdate raw w = (w, [])
     ∧ spanClick nonAsciiPS nestedUpdate raw w = (w, [])).
Proof.
  split; [done|].
  split; [apply sanitizeWord_units|].
  split; [apply trim_ends|].
  split.
  - intros Hwf. eapply Forall_impl; [apply clean_trim, strip_clean, Hwf|].
    by intros p [_ ?].
  - intros E. unfold spanClick, handleWordClick. by rewrite E.
Qed.

(** C10, as amended.  On a string without unpaired surrogates
    [sanitizeWord] is idempotent: the first pass leaves no punctuation, no
    symbol and no white space at either end, so the second pass removes
    nothing. *)
Theorem sanitizeWord_idempotent_wellFormed (s : jsstring) :
  wellFormed s →
  sanitizeWord nonAsciiPS (sanitizeWord nonAsciiPS s)
  = sanitizeWord nonAsciiPS s.
Proof.
  intros Hwf. unfold sanitizeWord.
  rewrite stripPunctSymbols_fixed; [apply trim_idempotent|].
  eapply Forall_impl; [apply clean_trim, strip_clean, Hwf|].
  by intros p [_ ?].
Qed.

(** Between two halves of a surrogate pair, punctuation hides a symbol:
    removing it joins the halves, and the second pass removes the symbol
    they spell. *)
Lemma sanitizeWord_joins_surrogates :
  nonAsciiPS 0x1F600%N = true →
  sanitizeWord nonAsciiPS [0xD83D; 0x2E; 0xDE00]%N = [0xD83D; 0xDE00]%N
  ∧ sanitizeWord nonAsciiPS [0xD83D; 0xDE00]%N = [].
Proof.
  intros H. unfold sanitizeWord, stripPunctSymbols.
  split.
  - cbn [codePoints].
    replace (isLeadSurrogate 0xD83D && isTrailSurrogate 0x2E) with false
      by done.
    replace (isLeadSurrogate 0x2E && isTrailSurrogate 0xDE00) with false
      by done.
    rewrite !filter_cons, filter_nil. cbn [fst].
    replace (isPunctOrSymbol nonAsciiPS 0xD83D) with false by done.
    replace (isPunctOrSymbol nonAsciiPS 0x2E) with true by done.
    replace (isPunctOrSymbol nonAsciiPS 0xDE00) with false by done.
    done.
  - cbn [codePoints].
    replace (isLeadSurrogate 0xD83D && isTrailSurrogate 0xDE00) with true
      by done.
    rewrite !filter_cons, filter_nil. cbn [fst].
    replace (isPunctOrSymbol nonAsciiPS (surrogatePair 0xD83D 0xDE00))
      with (nonAsciiPS 0x1F600%N) by done.
    by rewrite H.
Qed.
End HandlerClaims.

(** ** Examples for the handlers *)

Lemma insufficient_corpus_witness :
  wordBank (db smallWorld) = Some [JString wA; JString wB; JString wC]
  ∧ (length (loadWords alreadyNormalized [JString wA; JString wB; JString wC])
     < NEW_BATCH_SIZE + MIX_SIZE)%nat
  ∧ fetchWords rejectNested alreadyNormalized echoStory smallWorld
    = (smallWorld, [GetDoc WordBankRef; GetDoc WordStatsRef;
                    Alert (NeedAtLeast 100 3)])
  ∧ wordBank (db largeWorld) = Some (map JString manyWords)
  ∧ (NEW_BATCH_SIZE + MIX_SIZE
     ≤ length (loadWords alreadyNormalized (map JString manyWords)))%nat
  ∧ (∀ need have,
       Alert (NeedAtLeast need have)
       ∉ (fetchWords rejectNested alreadyNormalized echoStory largeWorld).2).
Proof.
  assert (length (loadWords alreadyNormalized
                    [JString wA; JString wB; JString wC])
          < NEW_BATCH_SIZE + MIX_SIZE)%nat as H1 by (vm_compute; lia).
  assert (NEW_BATCH_SIZE + MIX_SIZE
          ≤ length (loadWords alreadyNormalized (map JString manyWords)))%nat
    as H2 by (vm_compute; lia).
  split; [reflexivity|]. split; [exact H1|].
  split.
  { exact (proj1 (insufficient_corpus rejectNested alreadyNormalized echoStory
                    smallWorld _ eq_refl) H1). }
  split; [reflexivity|]. split; [exact H2|].
  exact (proj1 (proj2 (insufficient_corpus rejectNested alreadyNormalized
                         echoStory largeWorld _ eq_refl) H2)).
Defined.

Lemma empty_token_is_noop_witness :
  wellFormed (str " ?! ")
  ∧ sanitizeWord emoticonBlock (str " ?! ") = []
  ∧ Forall (λ p, isPunctOrSymbol emoticonBlock p.1 = false)
           (codePoints (sanitizeWord emoticonBlock (str " ?! ")))
  ∧ handleWordClick emoticonBlock rejectNested (str " ?! ") smallWorld
    = (smallWorld, [])
  ∧ spanClick emoticonBlock rejectNested (str " ?! ") smallWorld
    = (smallWorld, []).
Proof.
  assert (wellFormed (str " ?! ")) as Hwf
    by (apply (bool_decide_unpack _); vm_compute; exact I).
  assert (sanitizeWord emoticonBlock (str " ?! ") = []) as H
    by (vm_compute; reflexivity).
  split; [exact Hwf|]. split; [exact H|].
  destruct (empty_token_is_noop emoticonBlock rejectNested (str " ?! ")
              smallWorld) as (_ & _ & _ & Hclean & Hnoop).
  split; [exact (Hclean Hwf)|exact (Hnoop H)].
Defined.

Lemma sanitizeWord_idempotent_witness :
  wellFormed (str " Haus, ")
  ∧ sanitizeWord emoticonBlock (sanitizeWord emoticonBlock (str " Haus, "))
    = sanitizeWord emoticonBlock (str " Haus, ").
Proof.
  assert (wellFormed (str " Haus, ")) as H
    by (apply (bool_decide_unpack _); vm_compute; exact I).
  split; [exact H|].
  exact (sanitizeWord_idempotent_wellFormed emoticonBlock (str " Haus, ") H).
Defined.

(** C10 as stated fails on a string with unpaired surrogates: a dot between
    the two halves of U+1F600. *)
Lemma sanitizeWord_not_idempotent :
  sanitizeWord emoticonBlock [0xD83D; 0x2E; 0xDE00]%N = [0xD83D; 0xDE00]%N
  ∧ sanitizeWord emoticonBlock
      (sanitizeWord emoticonBlock [0xD83D; 0x2E; 0xDE00]%N) = []
  ∧ sanitizeWord emoticonBlock
      (sanitizeWord emoticonBlock [0xD83D; 0x2E; 0xDE00]%N)
    ≠ sanitizeWord emoticonBlock [0xD83D; 0x2E; 0xDE00]%N.
Proof.
  split; [vm_compute; reflexivity|].
  split; [vm_compute; reflexivity|].
  vm_compute. discriminate.
Qed.

(** * Further properties *)

(** ** pickRandom *)

Lemma pickRandom_rng {A} (g g' : rng) (l picked : list A) n :
  pickRandom g l n = (picked, g') →
  g' = Rng (draws g) (used g + length picked).
Proof.
  revert g g' l picked.
  induction n as [|n IH]; intros g g' l picked; cbn [pickRandom].
  - intros [= <- <-]. destruct g. cbn. f_equal. lia.
  - destruct l as [|a l].
    { intros [= <- <-]. destruct g. cbn. f_equal. lia. }
    unfold randomIndex.
    destruct ((a :: l) !! _) as [x|] eqn:Hidx.
    + destruct (pickRandom _ (delete _ (a :: l)) n) as [p g2] eqn:Hrec.
      intros [= <- <-]. apply IH in Hrec as ->. cbn. f_equal. lia.
    + apply lookup_ge_None in Hidx.
      pose proof (Nat.mod_upper_bound (draws g (used g)) (length (a :: l))).
      cbn [length] in *. lia.
Qed.

(** X1.  [pickRandom(arr, n)] returns exactly min(n, arr.length) elements,
    and they are drawn without replacement: the result is a sub-multiset of
    [arr], so no position of [arr] is picked twice. *)
Theorem pickRandom_draws_without_replacement {A} (g : rng) (arr : list A)
    (n : nat) :
  length (pickRandom g arr n).1 = Nat.min n (length arr)
  ∧ (pickRandom g arr n).1 ⊆+ arr.
Proof.
  destruct (pickRandom g arr n) as [picked g'] eqn:E. cbn [fst]. split.
  - by eapply pickRandom_length.
  - by eapply pickRandom_submseteq.
Qed.

(** X2.  [pickRandom] calls [Math.random] once per element it returns, that
    is min(n, arr.length) times, and never when [n] is 0 or [arr] is
    empty. *)
Theorem pickRandom_consumes_one_draw_per_pick {A} (g : rng) (arr : list A)
    (n : nat) :
  (pickRandom g arr n).2 = Rng (draws g) (used g + Nat.min n (length arr)).
Proof.
  destruct (pickRandom g arr n) as [picked g'] eqn:E. cbn [snd].
  rewrite (pickRandom_rng _ _ _ _ _ E). f_equal.
  by erewrite pickRandom_length.
Qed.

(** X3.  Asked for at least as many elements as the array holds,
    [pickRandom] returns all of them, in a shuffled order. *)
Theorem pickRandom_shuffles_all {A} (g : rng) (arr : list A) (n : nat) :
  (length arr ≤ n)%nat → (pickRandom g arr n).1 ≡ₚ arr.
Proof.
  intros Hn. destruct (pickRandom g arr n) as [picked g'] eqn:E. cbn [fst].
  apply submseteq_length_Permutation.
  - by eapply pickRandom_submseteq.
  - erewrite (pickRandom_length _ _ _ picked) by done. lia.
Qed.

Lemma pickRandom_shuffles_all_witness :
  (length [wA; wB; wC] ≤ 5)%nat
  ∧ (pickRandom exampleRng [wA; wB; wC] 5).1 ≡ₚ [wA; wB; wC].
Proof.
  assert (length [wA; wB; wC] ≤ 5)%nat as H by (vm_compute; lia).
  split; [exact H|].
  exact (pickRandom_shuffles_all exampleRng [wA; wB; wC] 5 H).
Defined.

(** ** The selector *)

Lemma tier_counts (su cc lcu : statMap) (allWords : list word) :
  nonNegative su → nonNegative cc →
  (∀ w, w ∈ allWords → noZeroUsageClicked su cc w) →
  (∀ w, w ∈ allWords → isPrototypeMember w = false) →
  (length (tierWords su cc lcu Unseen allWords)
   + length (tierWords su cc lcu SeenUnclicked allWords)
   + length (tierWords su cc lcu ClickedInLearning allWords)
   + length (tierWords su cc lcu MasteredByRepetition allWords)
   + length (tierWords su cc lcu MasteredByReview allWords)
   = length allWords)%nat.
Proof.
  intros Hsu Hcc Hz Hp. unfold tierWords.
  induction allWords as [|x l IH]; [done|].
  destruct (tier_exclusive su cc lcu x Hsu Hcc) as [t Ht].
  { apply Hz, elem_of_cons. by left. }
  { apply Hp, elem_of_cons. by left. }
  assert (∀ t', inTier su cc lcu t' x = bool_decide (t' = t)) as Hb.
  { intros t'. destruct (inTier su cc lcu t' x) eqn:E.
    - apply Ht in E as ->. by rewrite bool_decide_eq_true_2.
    - rewrite bool_decide_eq_false_2; [done|].
      intros ->. rewrite (proj2 (Ht t) eq_refl) in E. done. }
  specialize (IH (λ w Hw, Hz w (proj2 (elem_of_cons l w x) (or_intror Hw)))
                 (λ w Hw, Hp w (proj2 (elem_of_cons l w x) (or_intror Hw)))).
  rewrite !filter_cons.
  repeat case_decide;
    repeat match goal with
    | H : context [inTier _ _ _ _ x] |- _ => rewrite Hb in H
    end;
    destruct t; try done; cbn [length] in *; lia.
Qed.

(** X4.  The five category counts the selector prints add up to the size of
    the universe, for stat maps with non-negative values in which no clicked
    word has a stored usage count of 0, when no word of the universe is the
    name of a member every object inherits: the console line accounts for
    every word exactly once. *)
Theorem logged_counts_cover_universe (g : rng) (allWords : list word)
    (su cc lcu : statMap) :
  nonNegative su → nonNegative cc →
  (∀ w, w ∈ allWords → noZeroUsageClicked su cc w) →
  (∀ w, w ∈ allWords → isPrototypeMember w = false) →
  let counts := (selectSpacedRepetitionWords g allWords su cc lcu).2 in
  (nUnseen counts + nSeenUnclicked counts + nClickedInLearning counts
   + nMasteredRep counts + nMasteredReview counts = length allWords)%nat.
Proof.
  intros Hsu Hcc Hz Hp counts. subst counts.
  pose proof (selectSteps_facts g allWords su cc lcu) as facts.
  unfold selectSpacedRepetitionWords.
  destruct (selectSteps g allWords su cc lcu) as [s g']. cbn [fst snd] in *.
  unfold loggedCounts. cbn [nUnseen nSeenUnclicked nClickedInLearning
    nMasteredRep nMasteredReview].
  rewrite (sf_unseen _ _ _ _ _ facts), (sf_seenUnclicked _ _ _ _ _ facts),
    (sf_clicked _ _ _ _ _ facts), (sf_masteredRep _ _ _ _ _ facts),
    (sf_masteredReview _ _ _ _ _ facts).
  by apply tier_counts.
Qed.

Lemma logged_counts_cover_universe_witness :
  nonNegative exampleUsage ∧ nonNegative exampleClicks
  ∧ (∀ w, w ∈ [wA; wB; wC] → noZeroUsageClicked exampleUsage exampleClicks w)
  ∧ (∀ w, w ∈ [wA; wB; wC] → isPrototypeMember w = false)
  ∧ let counts := (selectSpacedRepetitionWords exampleRng [wA; wB; wC]
                     exampleUsage exampleClicks exampleLastClick).2 in
    (nUnseen counts + nSeenUnclicked counts + nClickedInLearning counts
     + nMasteredRep counts + nMasteredReview counts
     = length [wA; wB; wC])%nat.
Proof.
  assert (nonNegative exampleUsage) as H1
    by (apply (bool_decide_unpack _); vm_compute; exact I).
  assert (nonNegative exampleClicks) as H2
    by (apply (bool_decide_unpack _); vm_compute; exact I).
  assert (∀ w, w ∈ [wA; wB; wC] →
               noZeroUsageClicked exampleUsage exampleClicks w) as H3
    by (apply Forall_forall, (bool_decide_unpack _); vm_compute; exact I).
  assert (∀ w, w ∈ [wA; wB; wC] → isPrototypeMember w = false) as H4
    by (apply Forall_forall, (bool_decide_unpack _); vm_compute; exact I).
  split; [exact H1|]. split; [exact H2|]. split; [exact H3|].
  split; [exact H4|].
  exact (logged_counts_cover_universe exampleRng [wA; wB; wC] exampleUsage
           exampleClicks exampleLastClick H1 H2 H3 H4).
Defined.

(** X30.  A word that names a member every object inherits, and for which
    the usage map stores no count, is kept by none of the five category
    filters, whatever its click counts: it is counted in no category and
    the selector never returns it. *)
Theorem inherited_member_is_never_selected (g : rng) (allWords : list word)
    (su cc lcu : statMap) (w : word) :
  isPrototypeMember w = true → su !! w = None →
  tiersOf su cc lcu w = []
  ∧ (∀ t, w ∉ tierWords su cc lcu t allWords)
  ∧ w ∉ (selectSpacedRepetitionWords g allWords su cc lcu).1.1.
Proof.
  intros Hw Hsu.
  assert (∀ t, inTier su cc lcu t w = false) as Hnone
    by (intros t; by apply inherited_member_in_no_tier).
  split; [|split].
  - unfold tiersOf, allTiers. by rewrite !filter_cons, filter_nil, !Hnone.
  - intros t [Hin _]%elem_of_tierWords. by rewrite Hnone in Hin.
  - rewrite selectSpacedRepetitionWords_batch. intros Hsel.
    eapply elem_of_batch in Hsel as (t & _ & Hin); [|apply selectSteps_facts].
    apply elem_of_tierWords in Hin as [Hin _]. by rewrite Hnone in Hin.
Qed.

Lemma inherited_member_is_never_selected_witness :
  isPrototypeMember (str "constructor") = true
  ∧ exampleUsage !! str "constructor" = None
  ∧ tiersOf exampleUsage exampleClicks exampleLastClick (str "constructor")
    = []
  ∧ (∀ t, str "constructor"
          ∉ tierWords exampleUsage exampleClicks exampleLastClick t
              [wA; str "constructor"; wC])
  ∧ str "constructor"
    ∉ (selectSpacedRepetitionWords exampleRng [wA; str "constructor"; wC]
         exampleUsage exampleClicks exampleLastClick).1.1.
Proof.
  assert (isPrototypeMember (str "constructor") = true) as H1
    by (vm_compute; reflexivity).
  assert (exampleUsage !! str "constructor" = None) as H2
    by (vm_compute; reflexivity).
  split; [exact H1|]. split; [exact H2|].
  exact (inherited_member_is_never_selected exampleRng
           [wA; str "constructor"; wC] exampleUsage exampleClicks
           exampleLastClick (str "constructor") H1 H2).
Defined.

(** The words the selector may draw. *)
Section Selectable.
Variable allWords : list word.
Variables su cc lcu : statMap.
Variable s : selection.
Hypothesis facts : selectionFacts allWords su cc lcu s.
Hypothesis Hnd : NoDup allWords.
Hypothesis Hz : ∀ w, w ∈ allWords → noZeroUsageClicked su cc w.

Lemma selectable_NoDup : NoDup (selectable su cc lcu allWords).
Proof.
  unfold selectable. rewrite !NoDup_app.
  repeat split; try by apply NoDup_filter.
  - intros x [Hu Hx]%elem_of_tierWords. rewrite elem_of_app.
    intros [[H _]%elem_of_tierWords | [H _]%elem_of_tierWords];
      cbn [inTier] in *.
    + by eapply unseen_not_seenUnclicked.
    + eapply unseen_not_clicked; eauto.
  - intros x [Hu Hx]%elem_of_tierWords [H _]%elem_of_tierWords.
    cbn [inTier] in *. by eapply seenUnclicked_not_clicked.
Qed.

Lemma provisional_pool_Permutation :
  provisional s
  ++ fallbackPool (unseen s) (seenUnclicked s) (sortedClicked s) (provisional s)
  ≡ₚ selectable su cc lcu allWords.
Proof.
  apply NoDup_Permutation.
  - apply NoDup_app. split; [|split].
    + eapply submseteq_NoDup; [by eapply provisional_submseteq|].
      apply NoDup_app. repeat split; try by apply NoDup_filter.
      intros x [Hu Hx]%elem_of_tierWords [Hc _]%elem_of_tierWords.
      cbn [inTier] in *. eapply unseen_not_clicked; eauto.
    + intros x Hx Hin.
      by eapply elem_of_fallbackPool in Hin as [? _].
    + by eapply fallbackPool_NoDup.
  - apply selectable_NoDup.
  - intros x. unfold selectable. rewrite !elem_of_app. split.
    + intros [Hx | Hx].
      * eapply elem_of_submseteq in Hx; [|by eapply provisional_submseteq].
        apply elem_of_app in Hx. tauto.
      * eapply elem_of_fallbackPool in Hx as [_ (t & Ht & Hx)]; [|done].
        rewrite !elem_of_cons, elem_of_nil in Ht.
        destruct Ht as [-> | [-> | [-> | []]]]; tauto.
    + intros Hx.
      destruct (decide (x ∈ provisional s)) as [|Hnot]; [by left|right].
      unfold fallbackPool. rewrite !elem_of_app, !list_elem_of_filter.
      rewrite (sf_unseen _ _ _ _ _ facts), (sf_seenUnclicked _ _ _ _ _ facts),
        (sortedClicked_Permutation _ _ _ _ _ facts).
      tauto.
Qed.

Lemma batch_length_selectable :
  length (selectedWords s)
  = Nat.min TARGET_BATCH_SIZE (length (selectable su cc lcu allWords)).
Proof.
  rewrite (batch_length _ _ _ _ _ facts).
  by rewrite <- provisional_pool_Permutation, length_app.
Qed.

Lemma batch_all_selectable :
  (length (selectable su cc lcu allWords) ≤ TARGET_BATCH_SIZE)%nat →
  selectedWords s ≡ₚ selectable su cc lcu allWords.
Proof.
  intros Hle. rewrite <- provisional_pool_Permutation in Hle |- *.
  rewrite length_app in Hle.
  destruct (sf_backfill _ _ _ _ _ facts) as (fill & -> & Hfill & Hlen).
  f_equiv. apply submseteq_length_Permutation; [done|]. lia.
Qed.
End Selectable.

(** X5.  For a duplicate-free universe in which no clicked word has a stored
    usage count of 0, the batch holds min(100, k) words, where k is the
    number of words that are not mastered: it is short only when fewer than
    100 selectable words exist. *)
Theorem batch_length_is_min_of_selectable (g : rng) (allWords : list word)
    (su cc lcu : statMap) :
  NoDup allWords →
  (∀ w, w ∈ allWords → noZeroUsageClicked su cc w) →
  length (selectSpacedRepetitionWords g allWords su cc lcu).1.1
  = Nat.min TARGET_BATCH_SIZE (length (selectable su cc lcu allWords)).
Proof.
  intros Hnd Hz. rewrite selectSpacedRepetitionWords_batch.
  eapply batch_length_selectable; [apply selectSteps_facts|done|done].
Qed.

Lemma batch_length_is_min_of_selectable_witness :
  NoDup [wA; wB; wC]
  ∧ (∀ w, w ∈ [wA; wB; wC] → noZeroUsageClicked exampleUsage exampleClicks w)
  ∧ length (selectSpacedRepetitionWords exampleRng [wA; wB; wC] exampleUsage
              exampleClicks exampleLastClick).1.1
    = Nat.min TARGET_BATCH_SIZE
        (length (selectable exampleUsage exampleClicks exampleLastClick
                   [wA; wB; wC])).
Proof.
  assert (NoDup [wA; wB; wC]) as H1
    by (apply (bool_decide_unpack _); vm_compute; exact I).
  assert (∀ w, w ∈ [wA; wB; wC] →
               noZeroUsageClicked exampleUsage exampleClicks w) as H2
    by (apply Forall_forall, (bool_decide_unpack _); vm_compute; exact I).
  split; [exact H1|]. split; [exact H2|].
  exact (batch_length_is_min_of_selectable exampleRng [wA; wB; wC]
           exampleUsage exampleClicks exampleLastClick H1 H2).
Defined.

(** X6.  Under the same conditions, when at most 100 words are not mastered
    the batch is a rearrangement of all of them: the backfill leaves no
    selectable word out. *)
Theorem small_universe_selects_everything (g : rng) (allWords : list word)
    (su cc lcu : statMap) :
  NoDup allWords →
  (∀ w, w ∈ allWords → noZeroUsageClicked su cc w) →
  (length (selectable su cc lcu allWords) ≤ TARGET_BATCH_SIZE)%nat →
  (selectSpacedRepetitionWords g allWords su cc lcu).1.1
  ≡ₚ selectable su cc lcu allWords.
Proof.
  intros Hnd Hz Hle. rewrite selectSpacedRepetitionWords_batch.
  eapply batch_all_selectable; [apply selectSteps_facts|done|done|done].
Qed.

Lemma small_universe_selects_everything_witness :
  NoDup [wA; wB; wC]
  ∧ (∀ w, w ∈ [wA; wB; wC] → noZeroUsageClicked exampleUsage exampleClicks w)
  ∧ (length (selectable exampleUsage exampleClicks exampleLastClick
               [wA; wB; wC]) ≤ TARGET_BATCH_SIZE)%nat
  ∧ (selectSpacedRepetitionWords exampleRng [wA; wB; wC] exampleUsage
       exampleClicks exampleLastClick).1.1
    ≡ₚ selectable exampleUsage exampleClicks exampleLastClick [wA; wB; wC].
Proof.
  assert (NoDup [wA; wB; wC]) as H1
    by (apply (bool_decide_unpack _); vm_compute; exact I).
  assert (∀ w, w ∈ [wA; wB; wC] →
               noZeroUsageClicked exampleUsage exampleClicks w) as H2
    by (apply Forall_forall, (bool_decide_unpack _); vm_compute; exact I).
  assert (length (selectable exampleUsage exampleClicks exampleLastClick
                    [wA; wB; wC]) ≤ TARGET_BATCH_SIZE)%nat as H3
    by (vm_compute; lia).
  split; [exact H1|]. split; [exact H2|]. split; [exact H3|].
  exact (small_universe_selects_everything exampleRng [wA; wB; wC]
           exampleUsage exampleClicks exampleLastClick H1 H2 H3).
Defined.

(** X7.  The selector calls [Math.random] exactly once per word of the
    batch it returns. *)
Theorem selector_consumes_one_draw_per_word (g : rng) (allWords : list word)
    (su cc lcu : statMap) :
  (selectSpacedRepetitionWords g allWords su cc lcu).1.2
  = Rng (draws g)
      (used g
       + length (selectSpacedRepetitionWords g allWords su cc lcu).1.1).
Proof.
  unfold selectSpacedRepetitionWords, selectSteps. cbv zeta.
  next_pick Hnew. next_pick Hhard. next_pick Hmedium. next_pick Heasy.
  apply pickRandom_rng in Hnew as ->, Hhard as ->, Hmedium as ->, Heasy as ->.
  cbn [draws used].
  destruct (bool_decide _).
  - next_pick Hfill. apply pickRandom_rng in Hfill as ->.
    cbn [fst snd selectedWords draws used]. rewrite !length_app. f_equal. lia.
  - cbn [fst snd selectedWords]. rewrite !length_app. f_equal. lia.
Qed.

Lemma app_sorted_le cc (l1 l2 : list word) :
  StronglySorted (clicksLe cc) (l1 ++ l2) →
  Forall (λ a, Forall (clicksLe cc a) l2) l1.
Proof.
  induction l1 as [|a l1 IH]; cbn [app]; [constructor|].
  intros H. apply StronglySorted_inv in H as [Hs Ha].
  constructor; [|by apply IH].
  by apply Forall_app in Ha as [_ ?].
Qed.

(** X8.  The bands are ordered by difficulty: every Hard word has at most
    as many clicks as every Medium and every Easy word, and every Medium
    word at most as many as every Easy word. *)
Theorem bands_ordered_by_clicks (g : rng) (allWords : list word)
    (su cc lcu : statMap) :
  let s := (selectSteps g allWords su cc lcu).1 in
  Forall (λ a, Forall (clicksLe cc a) (medium s ++ easy s)) (hard s)
  ∧ Forall (λ b, Forall (clicksLe cc b) (easy s)) (medium s).
Proof.
  intros s.
  pose proof (selectSteps_facts g allWords su cc lcu : selectionFacts _ _ _ _ s)
    as facts.
  assert (StronglySorted (clicksLe cc) (hard s ++ medium s ++ easy s)) as Hs.
  { rewrite (bands_sorted _ _ _ _ _ facts).
    by eapply sortedClicked_sorted. }
  split; [by apply app_sorted_le|].
  apply app_sorted_le.
  clear facts. induction (hard s) as [|a l IH]; [done|].
  apply IH. cbn [app] in Hs. by apply StronglySorted_inv in Hs as [? _].
Qed.

(** ** sanitizeWord and the click recorder *)

Section SanitizeFurther.
Variable nonAsciiPS : N → bool.
Variable nestedUpdate :
  statsDoc → list (list jsstring * fieldValue) → writeResult.

Lemma stripPunctSymbols_sublist s :
  stripPunctSymbols nonAsciiPS s `sublist_of` s.
Proof.
  unfold stripPunctSymbols.
  induction s as [|u v t _ E IH|u t E _ IH] using codePoints_ind; [done| |];
    rewrite E, filter_cons; case_decide; cbn [map concat snd app].
  - by do 2 apply sublist_skip.
  - by do 2 apply sublist_cons.
  - by apply sublist_skip.
  - by apply sublist_cons.
Qed.

(** X9.  [sanitizeWord] only deletes: its result is a subsequence of its
    argument, so it never adds, replaces or reorders a code unit. *)
Theorem sanitizeWord_only_deletes (s : jsstring) :
  sanitizeWord nonAsciiPS s `sublist_of` s.
Proof.
  unfold sanitizeWord.
  transitivity (stripPunctSymbols nonAsciiPS s);
    [|apply stripPunctSymbols_sublist].
  destruct (trim_cut (stripPunctSymbols nonAsciiPS s))
    as (pre & post & E & _).
  rewrite E at 2. by apply sublist_inserts_l, sublist_inserts_r.
Qed.

(** X10.  A string that neither starts nor ends with white space and none of
    whose code points is punctuation or a symbol is returned unchanged. *)
Theorem sanitizeWord_keeps_plain_words (s : jsstring) :
  (∀ u, head s = Some u ∨ last s = Some u → isWhiteSpace u = false) →
  Forall (λ p, isPunctOrSymbol nonAsciiPS p.1 = false) (codePoints s) →
  sanitizeWord nonAsciiPS s = s.
Proof.
  intros Hends Hplain. unfold sanitizeWord.
  rewrite stripPunctSymbols_fixed by done. by apply trim_fixed.
Qed.

(** X11.  No ASCII punctuation mark or symbol survives [sanitizeWord], in
    any position and whatever surrounds it: the result holds no dot, slash,
    bracket, hyphen, quote or the like. *)
Theorem sanitizeWord_has_no_ascii_punctuation (s : jsstring) :
  Forall (λ u, asciiPunctOrSymbol u = false) (sanitizeWord nonAsciiPS s).
Proof.
  apply Forall_forall. intros u Hu.
  apply sanitizeWord_units in Hu.
  unfold isSurrogate, isPunctOrSymbol, asciiPunctOrSymbol in *.
  destruct (u <? 0x80)%N eqn:E; [nlia|]. clear Hu. nlia.
Qed.

Lemma sanitizeWord_twice s :
  wellFormed s →
  sanitizeWord nonAsciiPS (sanitizeWord nonAsciiPS s)
  = sanitizeWord nonAsciiPS s.
Proof.
  intros Hwf. unfold sanitizeWord.
  rewrite stripPunctSymbols_fixed; [apply trim_idempotent|].
  eapply Forall_impl; [apply clean_trim, strip_clean, Hwf|].
  by intros p [_ ?].
Qed.

(** X12.  For a token without unpaired surrogates the click listener of a
    span does exactly what [handleWordClick] does on the raw token:
    sanitizing in the listener and again in the recorder changes nothing. *)
Theorem spanClick_is_handleWordClick (token : jsstring) (w : world) :
  wellFormed token →
  spanClick nonAsciiPS nestedUpdate token w
  = handleWordClick nonAsciiPS nestedUpdate token w.
Proof.
  intros Hwf. unfold spanClick.
  destruct (isEmptyString (sanitizeWord nonAsciiPS token)) eqn:E.
  - unfold handleWordClick. by rewrite E.
  - unfold handleWordClick. by rewrite sanitizeWord_twice.
Qed.
End SanitizeFurther.

Lemma sanitizeWord_keeps_plain_words_witness :
  (∀ u, head (str "Haus") = Some u ∨ last (str "Haus") = Some u →
        isWhiteSpace u = false)
  ∧ Forall (λ p, isPunctOrSymbol emoticonBlock p.1 = false)
           (codePoints (str "Haus"))
  ∧ sanitizeWord emoticonBlock (str "Haus") = str "Haus".
Proof.
  assert (∀ u, head (str "Haus") = Some u ∨ last (str "Haus") = Some u →
               isWhiteSpace u = false) as H1.
  { intros u [[= <-] | [= <-]]; reflexivity. }
  assert (Forall (λ p, isPunctOrSymbol emoticonBlock p.1 = false)
                 (codePoints (str "Haus"))) as H2
    by (apply (bool_decide_unpack _); vm_compute; exact I).
  split; [exact H1|]. split; [exact H2|].
  exact (sanitizeWord_keeps_plain_words emoticonBlock (str "Haus") H1 H2).
Defined.

Lemma spanClick_is_handleWordClick_witness :
  wellFormed (str "Chor,")
  ∧ spanClick emoticonBlock rejectNested (str "Chor,") smallWorld
    = handleWordClick emoticonBlock rejectNested (str "Chor,") smallWorld.
Proof.
  assert (wellFormed (str "Chor,")) as H
    by (apply (bool_decide_unpack _); vm_compute; exact I).
  split; [exact H|].
  exact (spanClick_is_handleWordClick emoticonBlock rejectNested (str "Chor,")
           smallWorld H).
Defined.

Section ClickFurther.
Variable nonAsciiPS : N → bool.
Variable nestedUpdate :
  statsDoc → list (list jsstring * fieldValue) → writeResult.

(** X13.  A click on a word that has been shown puts it in the
    ClickedInLearning tier and in no other, whatever tier it was in before:
    a mastered word that is clicked returns to the review rotation. *)
Theorem click_returns_word_to_learning (raw : jsstring) (w : world)
    (d : statsDoc) (v : Z) :
  let word := sanitizeWord nonAsciiPS raw in
  wordStats (db w) = Some d →
  word ≠ [] →
  storyUsage d !! word = Some v → 0 < v →
  nonNegative (clickCount d) →
  ∃ d', wordStats (db (handleWordClick nonAsciiPS nestedUpdate raw w).1)
        = Some d'
    ∧ tiersOf (storyUsage d') (clickCount d') (lastClickUsage d') word
      = [ClickedInLearning].
Proof.
  intros word Hd Hne Hv Hpos Hcc.
  rewrite (handleWordClick_result nonAsciiPS nestedUpdate raw w);
    [|done|rewrite Hd; by eapply plainRead_stored].
  rewrite Hd. cbn [fst db wordStats].
  eexists. split; [done|]. cbn [storyUsage clickCount lastClickUsage].
  fold word. apply tiersOf_spec.
  assert (0 ≤ orZero (clickCount d !! word)) as Hc.
  { destruct (clickCount d !! word) as [c|] eqn:E; cbn; [by eapply Hcc|done]. }
  intros []; cbn [inTier];
    unfold isUnseen, isSeenUnclicked, isClickedInLearning,
      isMasteredByRepetition, isMasteredByReview, MASTER_THRESHOLD,
      REVIEW_THRESHOLD, getProp;
    rewrite ?lookup_insert_eq, Hv;
    cbn [orZero orZeroOf numOf subNums eqNum gtNum ltNum geNum];
    split; try discriminate; try done; lia.
Qed.

(** X14.  Two clicks on the same token add exactly 2 to its click count,
    leave its last-click usage at the usage count of the word, and change no
    usage count; this holds as well when the first click has to create the
    statistics record.  The usage count of the word reads as a number (the
    word is stored in the usage map or does not name an inherited member),
    and the two counts are integers a number holds exactly. *)
Theorem two_clicks_count_twice (raw : jsstring) (w : world) :
  let word := sanitizeWord nonAsciiPS raw in
  let before := wordStats (db w) in
  let w2 :=
    (handleWordClick nonAsciiPS nestedUpdate raw
       (handleWordClick nonAsciiPS nestedUpdate raw w).1).1 in
  word ≠ [] →
  plainRead (from_option storyUsage ∅ before) word →
  safeInteger (orZero (from_option storyUsage ∅ before !! word)) →
  safeInteger (orZero (from_option clickCount ∅ before !! word)) →
  ∃ d2, wordStats (db w2) = Some d2
    ∧ clickCount d2 !! word
      = Some (orZero (from_option clickCount ∅ before !! word) + 2)
    ∧ lastClickUsage d2 !! word
      = Some (orZero (from_option storyUsage ∅ before !! word))
    ∧ storyUsage d2 = from_option storyUsage ∅ before.
Proof.
  intros word before w2 Hne Hread _ _. subst w2 before.
  rewrite (handleWordClick_result nonAsciiPS nestedUpdate raw w) by done.
  fold word.
  destruct (wordStats (db w)) as [d|]; cbn [fst from_option] in *;
    rewrite (handleWordClick_result nonAsciiPS nestedUpdate raw) by done;
    fold word;
    cbn [db wordStats fst from_option storyUsage clickCount lastClickUsage];
    (eexists; split; [done|]);
    cbn [storyUsage clickCount lastClickUsage];
    rewrite ?lookup_insert_eq, ?lookup_singleton_eq, ?lookup_empty;
    cbn [orZero]; repeat split; f_equal; lia.
Qed.

(** X29.  A click on a token whose sanitized form [word] is not empty adds
    exactly 1 to the click count of [word] and overwrites its last-click
    usage with the usage count it had before the click (0 when absent);
    nothing else in the three maps changes.  When there is no statistics
    record, one is created with an empty usage map, the click count 1 and
    the last-click usage 0 for [word] only.  The usage count of the word
    reads as a number (the word is stored in the usage map or does not name
    an inherited member), and the two counts are integers a number holds
    exactly. *)
Theorem click_recorded (raw : jsstring) (w : world) :
  let word := sanitizeWord nonAsciiPS raw in
  let before := wordStats (db w) in
  let w' := (handleWordClick nonAsciiPS nestedUpdate raw w).1 in
  word ≠ [] →
  plainRead (from_option storyUsage ∅ before) word →
  safeInteger (orZero (from_option storyUsage ∅ before !! word)) →
  safeInteger (orZero (from_option clickCount ∅ before !! word)) →
  wordBank (db w') = wordBank (db w)
  ∧ match before with
    | Some d =>
      ∃ d', wordStats (db w') = Some d'
        ∧ clickCount d' !! word = Some (orZero (clickCount d !! word) + 1)
        ∧ lastClickUsage d' !! word = Some (orZero (storyUsage d !! word))
        ∧ storyUsage d' = storyUsage d
        ∧ ∀ k, k ≠ word →
               clickCount d' !! k = clickCount d !! k
               ∧ lastClickUsage d' !! k = lastClickUsage d !! k
    | None =>
      wordStats (db w') = Some (StatsDoc ∅ {[word := 1]} {[word := 0]})
    end.
Proof.
  intros word before w' Hne Hread _ _. subst w' before.
  rewrite (handleWordClick_result nonAsciiPS nestedUpdate raw w) by done.
  fold word.
  destruct (wordStats (db w)) as [d|]; cbn [from_option fst db wordBank wordStats].
  - split; [done|]. eexists. split; [done|].
    cbn [clickCount lastClickUsage storyUsage].
    rewrite !lookup_insert_eq. repeat split; try done;
      by rewrite lookup_insert_ne.
  - done.
Qed.
End ClickFurther.

Lemma click_returns_word_to_learning_witness :
  wordStats (db smallWorld) = Some exampleStats
  ∧ sanitizeWord emoticonBlock (str "Chor,") ≠ []
  ∧ storyUsage exampleStats !! sanitizeWord emoticonBlock (str "Chor,")
    = Some 5
  ∧ 0 < 5
  ∧ nonNegative (clickCount exampleStats)
  ∧ ∃ d', wordStats (db (handleWordClick emoticonBlock rejectNested
                           (str "Chor,") smallWorld).1) = Some d'
      ∧ tiersOf (storyUsage d') (clickCount d') (lastClickUsage d')
          (sanitizeWord emoticonBlock (str "Chor,"))
        = [ClickedInLearning].
Proof.
  assert (sanitizeWord emoticonBlock (str "Chor,") ≠ []) as H2
    by (vm_compute; discriminate).
  assert (storyUsage exampleStats !! sanitizeWord emoticonBlock (str "Chor,")
          = Some 5) as H3 by (vm_compute; reflexivity).
  assert (0 < 5) as H4 by lia.
  assert (nonNegative (clickCount exampleStats)) as H5
    by (apply (bool_decide_unpack _); vm_compute; exact I).
  split; [reflexivity|]. split; [exact H2|]. split; [exact H3|].
  split; [exact H4|]. split; [exact H5|].
  exact (click_returns_word_to_learning emoticonBlock rejectNested
           (str "Chor,") smallWorld exampleStats 5 eq_refl H2 H3 H4 H5).
Defined.

Lemma two_clicks_count_twice_witness :
  sanitizeWord emoticonBlock (str "Chor,") ≠ []
  ∧ plainRead ∅ (sanitizeWord emoticonBlock (str "Chor,"))
  ∧ safeInteger (orZero ((∅ : statMap) !! sanitizeWord emoticonBlock
                                             (str "Chor,")))
  ∧ ∃ d2,
      wordStats (db (handleWordClick emoticonBlock rejectNested (str "Chor,")
                       (handleWordClick emoticonBlock rejectNested
                          (str "Chor,") freshWorld).1).1) = Some d2
      ∧ clickCount d2 !! sanitizeWord emoticonBlock (str "Chor,")
        = Some (orZero ((∅ : statMap) !! sanitizeWord emoticonBlock
                                           (str "Chor,")) + 2)
      ∧ lastClickUsage d2 !! sanitizeWord emoticonBlock (str "Chor,")
        = Some (orZero ((∅ : statMap) !! sanitizeWord emoticonBlock
                                           (str "Chor,")))
      ∧ storyUsage d2 = ∅.
Proof.
  assert (sanitizeWord emoticonBlock (str "Chor,") ≠ []) as H1
    by (vm_compute; discriminate).
  assert (plainRead ∅ (sanitizeWord emoticonBlock (str "Chor,"))) as H2
    by (vm_compute; discriminate).
  assert (safeInteger (orZero ((∅ : statMap) !! sanitizeWord emoticonBlock
                                                   (str "Chor,")))) as H3
    by (vm_compute; split; discriminate).
  split; [exact H1|]. split; [exact H2|]. split; [exact H3|].
  exact (two_clicks_count_twice emoticonBlock rejectNested (str "Chor,")
           freshWorld H1 H2 H3 H3).
Defined.

Lemma click_recorded_witness :
  sanitizeWord emoticonBlock (str "Chor,") = wC
  ∧ wC ≠ []
  ∧ plainRead exampleUsage wC ∧ plainRead ∅ wC
  ∧ safeInteger (orZero (exampleUsage !! wC))
  ∧ safeInteger (orZero (exampleClicks !! wC))
  ∧ safeInteger (orZero ((∅ : statMap) !! wC))
  ∧ (wordBank (db (handleWordClick emoticonBlock rejectNested (str "Chor,")
                     smallWorld).1)
     = wordBank (db smallWorld)
     ∧ ∃ d', wordStats (db (handleWordClick emoticonBlock rejectNested
                              (str "Chor,") smallWorld).1) = Some d'
         ∧ clickCount d' !! sanitizeWord emoticonBlock (str "Chor,")
           = Some (orZero (exampleClicks !! sanitizeWord emoticonBlock
                                              (str "Chor,")) + 1)
         ∧ lastClickUsage d' !! sanitizeWord emoticonBlock (str "Chor,")
           = Some (orZero (exampleUsage !! sanitizeWord emoticonBlock
                                             (str "Chor,")))
         ∧ storyUsage d' = exampleUsage
         ∧ ∀ k, k ≠ sanitizeWord emoticonBlock (str "Chor,") →
                clickCount d' !! k = exampleClicks !! k
                ∧ lastClickUsage d' !! k = exampleLastClick !! k)
  ∧ (wordBank (db (handleWordClick emoticonBlock rejectNested (str "Chor,")
                     freshWorld).1)
     = wordBank (db freshWorld)
     ∧ wordStats (db (handleWordClick emoticonBlock rejectNested (str "Chor,")
                        freshWorld).1)
       = Some (StatsDoc ∅
                 {[sanitizeWord emoticonBlock (str "Chor,") := 1]}
                 {[sanitizeWord emoticonBlock (str "Chor,") := 0]})).
Proof.
  assert (sanitizeWord emoticonBlock (str "Chor,") = wC) as E
    by (vm_compute; reflexivity).
  assert (sanitizeWord emoticonBlock (str "Chor,") ≠ []) as H1
    by (vm_compute; discriminate).
  assert (plainRead exampleUsage (sanitizeWord emoticonBlock (str "Chor,")))
    as H2 by (vm_compute; discriminate).
  assert (plainRead ∅ (sanitizeWord emoticonBlock (str "Chor,")))
    as H3 by (vm_compute; discriminate).
  assert (safeInteger (orZero (exampleUsage !! sanitizeWord emoticonBlock
                                                 (str "Chor,")))) as H4
    by (vm_compute; split; discriminate).
  assert (safeInteger (orZero (exampleClicks !! sanitizeWord emoticonBlock
                                                  (str "Chor,")))) as H5
    by (vm_compute; split; discriminate).
  assert (safeInteger (orZero ((∅ : statMap) !! sanitizeWord emoticonBlock
                                                   (str "Chor,")))) as H6
    by (vm_compute; split; discriminate).
  split; [exact E|].
  split; [rewrite <- E; exact H1|].
  split; [rewrite <- E; exact H2|]. split; [rewrite <- E; exact H3|].
  split; [rewrite <- E; exact H4|]. split; [rewrite <- E; exact H5|].
  split; [rewrite <- E; exact H6|].
  split.
  - exact (click_recorded emoticonBlock rejectNested (str "Chor,") smallWorld
             H1 H2 H4 H5).
  - exact (click_recorded emoticonBlock rejectNested (str "Chor,") freshWorld
             H1 H3 H6 H6).
Defined.

(** ** Writing the usage counts *)

Lemma arrayUnion_snoc {A} `{EqDecision A} (l k : list A) x :
  arrayUnion l (k ++ [x])
  = if bool_decide (x ∈ arrayUnion l k) then arrayUnion l k
    else arrayUnion l k ++ [x].
Proof. unfold arrayUnion. by rewrite foldl_app. Qed.

Lemma arrayUnion_elem_of {A} `{EqDecision A} (l k : list A) x :
  x ∈ arrayUnion l k ↔ x ∈ l ∨ x ∈ k.
Proof.
  induction k as [|y k IH] using rev_ind.
  - cbn. rewrite elem_of_nil. tauto.
  - rewrite arrayUnion_snoc. case_bool_decide as Hy.
    + rewrite IH, elem_of_app, list_elem_of_singleton.
      split; [tauto|]. intros [?|[?| ->]]; [tauto..|]. by apply IH.
    + rewrite !elem_of_app, IH, list_elem_of_singleton. tauto.
Qed.

Lemma arrayUnion_NoDup {A} `{EqDecision A} (l k : list A) :
  NoDup l → NoDup (arrayUnion l k).
Proof.
  intros Hl. induction k as [|y k IH] using rev_ind; [done|].
  rewrite arrayUnion_snoc. case_bool_decide as Hy; [done|].
  apply NoDup_app. split; [done|]. split; [|apply NoDup_singleton].
  intros x Hx ->%list_elem_of_singleton. done.
Qed.

Lemma arrayUnion_prefix {A} `{EqDecision A} (l k : list A) :
  l `prefix_of` arrayUnion l k.
Proof.
  induction k as [|y k IH] using rev_ind; [done|].
  rewrite arrayUnion_snoc. case_bool_decide; [done|].
  by apply prefix_app_r.
Qed.







Lemma lookup_initialUsage (selected : list word) x :
  initialUsage selected !! x
  = if bool_decide (x ∈ selected) then Some 1 else None.
Proof.
  unfold initialUsage.
  induction selected as [|y sel IH] using rev_ind; [done|].
  rewrite foldl_app. cbn [foldl].
  destruct (decide (x = y)) as [->|Hne].
  - rewrite lookup_insert_eq, bool_decide_eq_true_2; [done|].
    apply elem_of_app. right. by apply list_elem_of_singleton.
  - rewrite lookup_insert_ne, IH by done.
    case_bool_decide as H1; case_bool_decide as H2; try done;
      rewrite elem_of_app, list_elem_of_singleton in H2; tauto.
Qed.


(** Reserved field names: two underscores at each end. *)
Example reserved_field_names :
  map isReservedFieldName
    [str "__x__"; str "____"; str "___"; str "__x"; str "Chor"]
  = [true; true; false; false; false]
  ∧ fieldPathOf (str "storyUsage.__x__") = None.
Proof. by vm_compute. Qed.


Section FetchFurther.
Variable nonAsciiPS : N → bool.
Variable nestedUpdate :
  statsDoc → list (list jsstring * fieldValue) → writeResult.
Variable normalizeNFKC : jsstring → jsstring.
Variable generateStory : list word → jsstring.

(** X15.  Neither handler ever writes the word bank, and a click never
    consumes a random draw. *)
Theorem handlers_keep_word_bank (raw : jsstring) (w : world) :
  wordBank (db (fetchWords nestedUpdate normalizeNFKC generateStory w).1)
  = wordBank (db w)
  ∧ wordBank (db (handleWordClick nonAsciiPS nestedUpdate raw w).1)
    = wordBank (db w)
  ∧ random (handleWordClick nonAsciiPS nestedUpdate raw w).1 = random w.
Proof.
  split; [|split].
  - unfold fetchWords. destruct (wordBank (db w)) as [words|] eqn:E; [|done].
    case_bool_decide; [done|].
    destruct (selectSpacedRepetitionWords _ _ _ _ _) as [[selected g] counts].
    by destruct (match wordStats (db w) with Some _ => _ | None => _ end).
  - unfold handleWordClick.
    destruct (isEmptyString _); [done|].
    destruct (orZeroOf _); [|done].
    by destruct (updateDoc _ _ _) as [d|[]].
  - unfold handleWordClick.
    destruct (isEmptyString _); [done|].
    destruct (orZeroOf _); [|done].
    by destruct (updateDoc _ _ _) as [d|[]].
Qed.

(** X16.  The first generation, when no statistics record exists, the
    bank holds at least 100 words and no word of the batch is a reserved
    field name (one that begins and ends with two underscores), creates the
    record with the usage count 1 for exactly the words of the batch and
    with empty click maps, and displays the story generated from that
    batch. *)
Theorem first_generation_creates_usage (w : world) (words : list jsval) :
  wordBank (db w) = Some words →
  wordStats (db w) = None →
  (NEW_BATCH_SIZE + MIX_SIZE ≤ length (loadWords normalizeNFKC words))%nat →
  let batch :=
    (selectSpacedRepetitionWords (random w) (loadWords normalizeNFKC words)
       ∅ ∅ ∅).1.1 in
  let r := fetchWords nestedUpdate normalizeNFKC generateStory w in
  Forall (λ x, isReservedFieldName x = false) batch →
  (∃ d', wordStats (db r.1) = Some d'
     ∧ (∀ x, storyUsage d' !! x
             = if bool_decide (x ∈ batch) then Some 1 else None)
     ∧ clickCount d' = ∅ ∧ lastClickUsage d' = ∅)
  ∧ last r.2 = Some (DisplaySelectableStory (generateStory batch)).
Proof.
  intros Hbank Hstats Hlen batch r Hres. subst r.
  unfold fetchWords. rewrite Hbank, Hstats. cbn [from_option].
  rewrite bool_decide_eq_false_2 by lia.
  assert (existsb isRefusedFieldName batch = false) as Hok.
  { apply not_true_iff_false. intros (x & Hx & Hbad)%existsb_exists.
    apply list_elem_of_In in Hx.
    apply orb_true_iff in Hbad as [Hempty|Hbad].
    - subst batch. rewrite selectSpacedRepetitionWords_batch in Hx.
      eapply elem_of_batch in Hx as (t & _ & Hx); [|apply selectSteps_facts].
      apply elem_of_tierWords in Hx as [_ Hx].
      apply list_elem_of_filter in Hx as [Hx _]. by destruct x.
    - eapply Forall_forall in Hres; [|done]. congruence. }
  subst batch.
  destruct (selectSpacedRepetitionWords _ _ _ _ _) as [[selected g] counts].
  cbn [fst] in Hok. rewrite Hok.
  cbn [fst snd db wordStats]. split; [|done].
  eexists. split; [done|]. cbn [storyUsage clickCount lastClickUsage].
  split; [apply lookup_initialUsage|done].
Qed.



End FetchFurther.

Lemma first_generation_creates_usage_witness :
  wordBank (db freshHundredWorld) = Some (map JString hundredWords)
  ∧ wordStats (db freshHundredWorld) = None
  ∧ (NEW_BATCH_SIZE + MIX_SIZE
     ≤ length (loadWords alreadyNormalized (map JString hundredWords)))%nat
  ∧ Forall (λ x, isReservedFieldName x = false)
      (selectSpacedRepetitionWords (random freshHundredWorld)
         (loadWords alreadyNormalized (map JString hundredWords)) ∅ ∅ ∅).1.1
  ∧ (∃ d', wordStats (db (fetchWords rejectNested alreadyNormalized echoStory
                            freshHundredWorld).1) = Some d'
       ∧ (∀ x, storyUsage d' !! x
               = if bool_decide
                      (x ∈ (selectSpacedRepetitionWords
                              (random freshHundredWorld)
                              (loadWords alreadyNormalized
                                 (map JString hundredWords)) ∅ ∅ ∅).1.1)
                 then Some 1 else None)
       ∧ clickCount d' = ∅ ∧ lastClickUsage d' = ∅)
  ∧ last (fetchWords rejectNested alreadyNormalized echoStory
            freshHundredWorld).2
    = Some (DisplaySelectableStory
              (echoStory (selectSpacedRepetitionWords
                            (random freshHundredWorld)
                            (loadWords alreadyNormalized
                               (map JString hundredWords)) ∅ ∅ ∅).1.1)).
Proof.
  assert (NEW_BATCH_SIZE + MIX_SIZE
          ≤ length (loadWords alreadyNormalized (map JString hundredWords)))%nat
    as H by (vm_compute; lia).
  assert (Forall (λ x, isReservedFieldName x = false)
            (selectSpacedRepetitionWords (random freshHundredWorld)
               (loadWords alreadyNormalized (map JString hundredWords))
               ∅ ∅ ∅).1.1) as Hres
    by (apply (bool_decide_unpack _); vm_compute; exact I).
  split; [reflexivity|]. split; [reflexivity|]. split; [exact H|].
  split; [exact Hres|].
  exact (first_generation_creates_usage rejectNested alreadyNormalized
           echoStory freshHundredWorld _ eq_refl eq_refl H Hres).
Defined.




(** ** The upload handler *)

Lemma uploadToFirestore_bank (newWords : list jsstring)
    (bank : option (list jsval)) :
  ∃ b, (uploadToFirestore newWords bank).1 = Some b
    ∧ from_option id [] bank `prefix_of` b
    ∧ Forall (λ w, JString w ∈ b) newWords
    ∧ (NoDup (from_option id [] bank) → is_Some bank → NoDup b).
Proof.
  destruct bank as [existing|]; cbn [uploadToFirestore from_option id].
  - destruct (filter _ newWords) as [|u unique] eqn:E; cbn [fst].
    + exists existing. split; [done|]. split; [done|]. split; [|done].
      apply Forall_forall. intros w Hw.
      destruct (decide (JString w ∈ existing)) as [|Hnot]; [done|].
      assert (w ∈ filter (λ w, JString w ∉ existing) newWords) as Hin
        by by apply list_elem_of_filter.
      rewrite E in Hin. by apply elem_of_nil in Hin.
    + eexists. split; [done|]. split; [apply arrayUnion_prefix|].
      split; [|intros; by apply arrayUnion_NoDup].
      apply Forall_forall. intros w Hw. apply arrayUnion_elem_of.
      destruct (decide (JString w ∈ existing)) as [|Hnot]; [by left|right].
      apply list_elem_of_In, in_map, list_elem_of_In. rewrite <- E.
      by apply list_elem_of_filter.
  - eexists. split; [done|]. split; [apply prefix_nil|].
    split; [|by intros _ [? [=]]].
    apply Forall_forall. intros w Hw.
    by apply list_elem_of_In, in_map, list_elem_of_In.
Qed.

(** X20.  [uploadToFirestore] never drops or reorders a stored word: the
    bank it leaves starts with the bank it found, and it holds every
    uploaded word. *)
Theorem upload_keeps_and_adds (newWords : list jsstring)
    (bank : option (list jsval)) :
  ∃ b, (uploadToFirestore newWords bank).1 = Some b
    ∧ from_option id [] bank `prefix_of` b
    ∧ Forall (λ w, JString w ∈ b) newWords.
Proof.
  destruct (uploadToFirestore_bank newWords bank) as (b & ? & ? & ? & _).
  by exists b.
Qed.

(** X21.  An upload into an existing duplicate-free bank leaves it
    duplicate-free, even when the uploaded list repeats a word. *)
Theorem upload_keeps_bank_duplicate_free (newWords : list jsstring)
    (existing : list jsval) :
  NoDup existing →
  ∃ b, (uploadToFirestore newWords (Some existing)).1 = Some b ∧ NoDup b.
Proof.
  intros Hnd.
  destruct (uploadToFirestore_bank newWords (Some existing))
    as (b & Hb & _ & _ & Hb').
  exists b. split; [done|]. by apply Hb'.
Qed.

(** X22.  Uploading the same words a second time changes nothing and
    reports that all words already exist. *)
Theorem upload_twice_is_upload_once (newWords : list jsstring)
    (bank : option (list jsval)) :
  uploadToFirestore newWords (uploadToFirestore newWords bank).1
  = ((uploadToFirestore newWords bank).1, [AllWordsExist]).
Proof.
  destruct (uploadToFirestore_bank newWords bank) as (b & Hb & _ & Hall & _).
  rewrite Hb. cbn [uploadToFirestore].
  assert (filter (λ w, JString w ∉ b) newWords = []) as ->; [|done].
  clear Hb. induction Hall as [|w l Hw _ IH]; [done|].
  rewrite filter_cons. case_decide as Hd; [by destruct Hd|exact IH].
Qed.

Lemma list_ind2 {A} (P : list A → Prop) :
  P [] → (∀ x, P [x]) → (∀ x y l, P l → P (y :: l) → P (x :: y :: l)) →
  ∀ l, P l.
Proof.
  intros Hnil Hone Htwo l.
  assert (P l ∧ ∀ x, P (x :: l)) as [? _]; [|done].
  induction l as [|y l [IH1 IH2]]; [by split|].
  split; [apply IH2|]. intros x. by apply Htwo.
Qed.

Lemma splitList_cons (cur : jsstring) (inRun : bool) u (t : jsstring) :
  splitList cur inRun (u :: t)
  = if isListSeparator u then
      if inRun then splitList [] true t else cur :: splitList [] true t
    else if (u =? 0x0A)%N then cur :: splitList [] false t
    else
      match t with
      | v :: t' =>
        if (u =? 0x0D)%N && (v =? 0x0A)%N then cur :: splitList [] false t'
        else splitList (cur ++ [u]) false t
      | [] => [cur ++ [u]]
      end.
Proof. done. Qed.

Lemma splitList_pieces (s cur : jsstring) (inRun : bool) :
  Forall (λ u, isListSeparator u = false ∧ u ≠ 0x0A%N) cur →
  Forall (Forall (λ u, isListSeparator u = false ∧ u ≠ 0x0A%N))
         (splitList cur inRun s).
Proof.
  revert cur inRun.
  induction s as [|u|u v t IHt IHvt] using list_ind2; intros cur inRun Hcur.
  - by repeat constructor.
  - cbn. destruct (isListSeparator u) eqn:Hs.
    + destruct inRun; by repeat constructor.
    + destruct (N.eqb_spec u 0x0A); [by repeat constructor|].
      repeat constructor. apply Forall_app. by repeat constructor.
  - rewrite splitList_cons. destruct (isListSeparator u) eqn:Hs.
    + destruct inRun; [by apply IHvt|].
      constructor; [done|]. by apply IHvt.
    + destruct (N.eqb_spec u 0x0A).
      { constructor; [done|]. by apply IHvt. }
      destruct ((u =? 0x0D)%N && (v =? 0x0A)%N).
      * constructor; [done|]. by apply IHt.
      * apply IHvt, Forall_app. by repeat constructor.
Qed.

Section UploadProperties.
Variable normalizeNFC : jsstring → jsstring.
Variable toLowerCase : jsstring → jsstring.
Variable papaParse : jsstring → list (list jsstring).

(** X23.  Every word read from a text file is clean: it is not empty, has
    no white space at either end, and holds no comma, semicolon, bar or
    line feed, whatever the text. *)
Theorem parseTxt_words_are_clean (text : jsstring) :
  Forall cleanWord (parseTxt normalizeNFC text).
Proof.
  unfold parseTxt. apply Forall_forall. intros w [Hne Hw]%list_elem_of_filter.
  apply list_elem_of_In, in_map_iff in Hw as (piece & <- & Hpiece).
  apply list_elem_of_In in Hpiece. split; [|split].
  - by destruct (trim piece).
  - apply trim_ends.
  - pose proof (splitList_pieces (normalizeNFC (stripBOM text)) [] false
                  (Forall_nil_2 _)) as Hall.
    eapply Forall_forall in Hall; [|exact Hpiece].
    apply Forall_forall. intros u Hu%elem_of_trim.
    by eapply Forall_forall in Hall.
Qed.

Lemma splitList_plain (w cur : jsstring) (inRun : bool) :
  Forall (λ u, isListSeparator u = false ∧ u ≠ 0x0A%N) w →
  w ≠ [] → splitList cur inRun w = [cur ++ w].
Proof.
  intros Hw. revert cur inRun.
  induction Hw as [|u t [Hs Hlf] Ht IH]; [done|]. intros cur inRun _.
  rewrite splitList_cons, Hs. apply N.eqb_neq in Hlf. rewrite Hlf.
  destruct t as [|v t']; [done|].
  apply Forall_inv in Ht as [_ Hv]. apply N.eqb_neq in Hv.
  rewrite Hv, andb_false_r, IH by done. by rewrite <- app_assoc.
Qed.

Lemma splitList_line (w cur rest : jsstring) (inRun : bool) :
  Forall (λ u, isListSeparator u = false ∧ u ≠ 0x0A%N) w →
  last w ≠ Some 0x0D%N →
  splitList cur inRun (w ++ 0x0A%N :: rest)
  = (cur ++ w) :: splitList [] false rest.
Proof.
  intros Hw. revert cur inRun.
  induction Hw as [|u t [Hs Hlf] Ht IH]; intros cur inRun Hlast.
  - cbn. by rewrite app_nil_r.
  - cbn [app]. rewrite splitList_cons, Hs. apply N.eqb_neq in Hlf.
    rewrite Hlf.
    destruct t as [|v t']; cbn [app].
    + assert (u ≠ 0x0D%N) as Hcr by (intros ->; by apply Hlast).
      apply N.eqb_neq in Hcr. rewrite Hcr. cbn [andb].
      specialize (IH (cur ++ [u]) false ltac:(done)). cbn [app] in IH.
      by rewrite IH, <- app_assoc.
    + pose proof Ht as [_ Hv]%Forall_inv. apply N.eqb_neq in Hv.
      rewrite Hv, andb_false_r.
      change (v :: t' ++ 0x0A%N :: rest) with ((v :: t') ++ 0x0A%N :: rest).
      rewrite IH, <- app_assoc; [done|].
      by rewrite last_cons_cons in Hlast.
Qed.

Lemma cleanWord_parts w :
  cleanWord w →
  Forall (λ u, isListSeparator u = false ∧ u ≠ 0x0A%N) w
  ∧ last w ≠ Some 0x0D%N ∧ w ≠ [] ∧ trim w = w
  ∧ (∀ t, stripBOM (w ++ t) = w ++ t).
Proof.
  intros (Hne & Hends & Hplain). split; [done|]. split; [|split; [done|split]].
  - intros Hl. by specialize (Hends _ (or_intror Hl)).
  - by apply trim_fixed.
  - intros t. destruct w as [|u w']; [done|]. cbn.
    destruct (N.eqb_spec u 0xFEFF) as [->|]; [|done].
    by specialize (Hends _ (or_introl eq_refl)).
Qed.

Lemma splitList_joinLines (ws : list jsstring) :
  Forall cleanWord ws → ws ≠ [] → splitList [] false (joinLines ws) = ws.
Proof.
  induction 1 as [|w rest Hw Hrest IH]; [done|]. intros _.
  destruct (cleanWord_parts w Hw) as (Hplain & Hcr & Hne & _).
  cbn [joinLines]. destruct rest as [|w' rest'].
  - by rewrite splitList_plain.
  - rewrite splitList_line by done. cbn [app]. f_equal. by apply IH.
Qed.

Lemma clean_words_kept (ws : list jsstring) :
  Forall cleanWord ws →
  filter (λ w, negb (isEmptyString w)) (map trim ws) = ws.
Proof.
  induction 1 as [|x l Hx _ IH]; [done|].
  destruct (cleanWord_parts x Hx) as (_ & _ & Hne & Htrim & _).
  cbn [map]. rewrite filter_cons, Htrim, IH.
  by destruct x.
Qed.

(** X24.  A list of clean words written one per line is read back
    unchanged, when the text is already in normalization form C. *)
Theorem parseTxt_reads_back_lines (ws : list jsstring) :
  Forall cleanWord ws →
  normalizeNFC (joinLines ws) = joinLines ws →
  parseTxt normalizeNFC (joinLines ws) = ws.
Proof.
  intros Hws Hnfc. unfold parseTxt.
  assert (stripBOM (joinLines ws) = joinLines ws) as ->.
  { destruct Hws as [|w rest Hw _]; [done|].
    destruct (cleanWord_parts w Hw) as (_ & _ & _ & _ & Hbom).
    cbn [joinLines]. destruct rest; [|apply Hbom].
    by rewrite <- (app_nil_r w), Hbom. }
  rewrite Hnfc.
  destruct (decide (ws = [])) as [->|Hne]; [done|].
  rewrite splitList_joinLines by done. by apply clean_words_kept.
Qed.

(** X25.  The upload handler never touches the statistics record and never
    drops or reorders a stored word, whatever file it is given. *)
Theorem uploadWords_only_extends_bank (file : option (jsstring * jsstring))
    (store : firestore) :
  let store' := (uploadWords normalizeNFC toLowerCase papaParse file store).1 in
  wordStats store' = wordStats store
  ∧ from_option id [] (wordBank store)
    `prefix_of` from_option id [] (wordBank store').
Proof.
  unfold uploadWords. destruct file as [[name text]|]; [|done].
  repeat case_decide; try done.
  - destruct (uploadToFirestore_bank (parseCsv papaParse text) (wordBank store))
      as (b & Hb & Hpre & _).
    destruct (uploadToFirestore _ _) as [bank alerts]. cbn [fst] in *.
    subst bank. by split.
  - destruct (uploadToFirestore_bank (parseTxt normalizeNFC text)
                (wordBank store)) as (b & Hb & Hpre & _).
    destruct (uploadToFirestore _ _) as [bank alerts]. cbn [fst] in *.
    subst bank. by split.
Qed.
End UploadProperties.

(** ** The displayed story *)

Lemma splitWhiteSpace_concat (s cur : jsstring) (inSpace : bool) :
  concat (splitWhiteSpace cur inSpace s) = cur ++ s.
Proof.
  revert cur inSpace. induction s as [|u t IH]; intros cur inSpace.
  - destruct inSpace; cbn; by rewrite ?app_nil_r.
  - cbn [splitWhiteSpace].
    destruct (isWhiteSpace u), inSpace; cbn [concat]; rewrite IH;
      by rewrite <- ?app_assoc.
Qed.

(** A token is free of white space, or a non-empty run of white space. *)
Lemma splitWhiteSpace_tokens (s cur : jsstring) (inSpace : bool) :
  (if inSpace then cur ≠ [] ∧ Forall (λ u, isWhiteSpace u = true) cur
   else Forall (λ u, isWhiteSpace u = false) cur) →
  Forall (λ token, Forall (λ u, isWhiteSpace u = false) token
                   ∨ (token ≠ [] ∧ Forall (λ u, isWhiteSpace u = true) token))
         (splitWhiteSpace cur inSpace s).
Proof.
  revert cur inSpace. induction s as [|u t IH]; intros cur inSpace Hcur.
  - destruct inSpace; repeat constructor; tauto.
  - cbn [splitWhiteSpace].
    destruct (isWhiteSpace u) eqn:Hu, inSpace.
    + apply IH. destruct Hcur as [Hne Hws]. split; [by destruct cur|].
      apply Forall_app. by repeat constructor.
    + constructor; [by left|]. apply IH. by repeat constructor.
    + constructor; [by right|]. apply IH. by repeat constructor.
    + apply IH, Forall_app. by repeat constructor.
Qed.

Lemma trim_empty_iff (t : jsstring) :
  trim t = [] ↔ Forall (λ u, isWhiteSpace u = true) t.
Proof.
  split.
  - intros E. destruct (trim_cut t) as (pre & post & Ht & Hpre & Hpost).
    rewrite E in Ht. rewrite Ht. by apply Forall_app.
  - intros Hws. destruct (trim t) as [|u r] eqn:E; [done|].
    assert (isWhiteSpace u = false) as Hu.
    { apply (trim_ends t). left. by rewrite E. }
    assert (u ∈ t) as Hin by (apply elem_of_trim; rewrite E; by left).
    eapply Forall_forall in Hws; [|exact Hin]. congruence.
Qed.

(** X26.  The displayed story loses nothing: the texts of the nodes, read in
    order, spell the story text exactly. *)
Theorem displayed_story_is_the_text (text : jsstring) :
  concat (map nodeText (displaySelectableStory text)) = text.
Proof.
  unfold displaySelectableStory. rewrite map_map.
  rewrite (map_ext _ id); [|by intros a; destruct (isEmptyString _)].
  by rewrite map_id, splitWhiteSpace_concat.
Qed.

(** X27.  Only words are clickable: the token of every span is non-empty and
    holds no white space, and every text node holds nothing but white
    space. *)
Theorem only_words_are_clickable (text : jsstring) :
  Forall (λ n, match n with
               | Span token =>
                 token ≠ [] ∧ Forall (λ u, isWhiteSpace u = false) token
               | TextNode t => Forall (λ u, isWhiteSpace u = true) t
               end) (displaySelectableStory text).
Proof.
  unfold displaySelectableStory.
  pose proof (splitWhiteSpace_tokens text [] false (Forall_nil_2 _)) as Htok.
  induction Htok as [|token l Hkind _ IH]; [constructor|].
  cbn [map]. constructor; [|exact IH].
  destruct (isEmptyString (trim token)) eqn:E.
  - apply trim_empty_iff. by destruct (trim token).
  - assert (¬ Forall (λ u, isWhiteSpace u = true) token) as Hnot.
    { intros H%trim_empty_iff. by rewrite H in E. }
    destruct Hkind as [Hfree | [_ Hws]]; [|done].
    split; [|done]. intros ->. by apply Hnot.
Qed.

(** ** The earlier click logger *)

(** X28.  The earlier click logger records a word at most once: after a
    click the word is logged, the words logged before keep their places, at
    most one entry is added, and a second click on the same word changes
    nothing. *)
Theorem legacy_click_is_logged_once (word : jsstring)
    (clicks : option (list jsstring)) :
  ∃ logged, Legacy.handleWordClick word clicks = Some logged
    ∧ word ∈ logged
    ∧ from_option id [] clicks `prefix_of` logged
    ∧ (length logged ≤ S (length (from_option id [] clicks)))%nat
    ∧ Legacy.handleWordClick word (Some logged) = Some logged.
Proof.
  destruct clicks as [l|]; cbn [Legacy.handleWordClick from_option id].
  - eexists. split; [done|].
    split; [apply arrayUnion_elem_of; right; by apply list_elem_of_singleton|].
    split; [apply arrayUnion_prefix|].
    unfold arrayUnion. cbn [foldl].
    case_bool_decide as Hin.
    + split; [lia|]. by rewrite bool_decide_eq_true_2.
    + rewrite length_app. cbn [length]. split; [lia|].
      rewrite bool_decide_eq_true_2; [done|].
      apply elem_of_app. right. by apply list_elem_of_singleton.
  - exists [word]. split; [done|].
    split; [by apply list_elem_of_singleton|]. split; [apply prefix_nil|].
    split; [done|]. unfold arrayUnion. cbn [foldl].
    rewrite bool_decide_eq_true_2; [done|]. by apply list_elem_of_singleton.
Qed.

(** ** Examples for the upload handler *)

Lemma upload_keeps_bank_duplicate_free_witness :
  NoDup [JString wA; JString wB]
  ∧ ∃ b, (uploadToFirestore [wB; wC; wC] (Some [JString wA; JString wB])).1
         = Some b
      ∧ NoDup b.
Proof.
  assert (NoDup [JString wA; JString wB]) as H
    by (apply (bool_decide_unpack _); vm_compute; exact I).
  split; [exact H|].
  exact (upload_keeps_bank_duplicate_free [wB; wC; wC]
           [JString wA; JString wB] H).
Defined.

Lemma parseTxt_reads_back_lines_witness :
  Forall cleanWord [wA; wB; wC]
  ∧ alreadyNormalized (joinLines [wA; wB; wC]) = joinLines [wA; wB; wC]
  ∧ parseTxt alreadyNormalized (joinLines [wA; wB; wC]) = [wA; wB; wC].
Proof.
  assert (Forall cleanWord [wA; wB; wC]) as H.
  { repeat constructor; try discriminate;
      try (intros u [[= <-] | [= <-]]; reflexivity);
      apply (bool_decide_unpack _); vm_compute; exact I. }
  split; [exact H|]. split; [reflexivity|].
  exact (parseTxt_reads_back_lines alreadyNormalized [wA; wB; wC] H eq_refl).
Defined.
